(** * AIInterviewer: the capture / interview-progression core of [given.py]

    A shallow embedding of [AudioHandler.listen_for_audio] and of the
    [AIInterviewer] methods [speech_to_text], [wait_for_key],
    [save_transcript], [_ask_question_and_record] and [start_interview].

    Python objects are threaded as an explicit [state]; the outside world
    (keyboard, microphone, wall clock, recogniser, resume tooling) is a set of
    scripts and oracles read by the code.  A computation yields [None] when
    it is still blocked at the end of its script (no key ever arrives, the
    clock never passes the limit), [Some (Ok v, s)] when it returns [v] and
    [Some (Raise e, s)] when it unwinds with the Python exception [e].

    Modelling choices, all visible in the definitions below:
    - time values ([time.time()], [max_duration]) are rationals, in seconds;
    - a Python [str] is the [string] of its UTF-8 encoding (a lone
      surrogate by its three-byte form), so every text has a model; the
      character of a key is one 8-bit character;
    - console [print]s are left out of the trace, except the prompt of
      [wait_for_key]; [speak] is one [EvSpeak] event (its own TTS and
      playback failures are caught inside [speak] and never leave it);
    - the file system is the set of paths that name a directory and the
      map from the paths that name a regular file to their content; paths
      are POSIX paths, and a file or directory is known by the text of its
      path (two texts for one file, as links, [..] or a doubled separator
      give them, are not related).  Making a directory and opening a file
      for writing fail when the operating system refuses them (the oracle
      [os_error]: permissions, a read-only file system) and, for the file,
      when the layout of the disk does not allow it (a directory on the
      path is missing or is a regular file, the path names a directory);
      a write to a file once opened goes through;
    - SIGINT delivered by the terminal is not modelled: [KeyboardInterrupt]
      is raised only where the source raises it. *)

From Stdlib Require Import Ascii String QArith.
From stdpp Require Import base gmap strings list pretty.

Close Scope Q_scope.
Local Open Scope string_scope.
Local Open Scope list_scope.

(** ** Python values *)

Definition bytes := list Byte.byte.

(** The exception classes the code distinguishes.  [FileNotFoundError] and
    [OtherException] are subclasses of [Exception]; [KeyboardInterrupt] is
    not. *)
Inductive exn :=
| KeyboardInterrupt
| FileNotFoundError (msg : string)
| OtherException (msg : string).

Definition is_Exception (e : exn) : bool :=
  match e with
  | KeyboardInterrupt => false
  | FileNotFoundError _ | OtherException _ => true
  end.

(** Failures of the external collaborators (audio device, recogniser, PDF
    extraction, question generation): ordinary [Exception]s. *)
Inductive fault :=
| NotFound (msg : string)
| Failure (msg : string).

Definition exn_of_fault (f : fault) : exn :=
  match f with
  | NotFound m => FileNotFoundError m
  | Failure m => OtherException m
  end.

Definition fault_message (f : fault) : string :=
  match f with NotFound m | Failure m => m end.

Inductive result (A : Type) :=
| Ok (a : A)
| Raise (e : exn).
Arguments Ok {A} a.
Arguments Raise {A} e.

(** A pynput key: a [KeyCode] carries [char] (possibly [None]); the members
    of the [Key] enumeration have no [char] attribute at all. *)
Inductive key :=
| KeyCode (char : option ascii)
| SpecialKey (name : string).

(** [str.lower] on one character.  Only the comparison with ['r'], ['q'] and
    ['e'] matters, and no code point outside [A-Z] lowers to an ASCII
    letter other than itself. *)
Definition lower (c : ascii) : ascii :=
  let n := nat_of_ascii c in
  if (65 <=? n)%nat && (n <=? 90)%nat then ascii_of_nat (n + 32) else c.

(** [key.char and key.char.lower() == c], inside [try ... except
    AttributeError: pass]: [None] when the attribute access raises. *)
Definition char_is (k : key) (c : ascii) : option bool :=
  match k with
  | KeyCode (Some ch) => Some (bool_decide (lower ch = c))
  | KeyCode None => Some false
  | SpecialKey _ => None
  end.

(** ** Data model *)

Record question_item := QuestionItem { qi_id : string; qi_question : string }.

Record entry := Entry { question_id : string; question : string; answer : string }.

Record key_pressed := KeyPressed { kp_e : bool; kp_q : bool }.

(** One turn of the read loop of [listen_for_audio], as the world presents
    it: the keys the listener thread handled since the previous poll, the
    value [time.time()] returns if asked, what [stream.read] does if
    called. *)
Record tick := Tick { tk_keys : list key; tk_now : Q; tk_read : fault + bytes }.

(** One capture: the clock at [start_time], the turns, and the keys handled
    between the last poll of the loop and [listener.stop()]. *)
Record capture_script :=
  CaptureScript { cs_start : Q; cs_ticks : list tick; cs_late : list key }.

Inductive event :=
| EvSpeak (text : string)
| EvPrompt
| EvStreamOpen
| EvStreamStart
| EvWatcherStart
| EvWatcherStop
| EvStreamStop
| EvStreamClose
| EvLogError (msg : string)
| EvWrite (path content : string).

(** What never changes during a session: the interviewer's identity and
    questions, the environment variables, and the external collaborators. *)
Record config := Config {
  candidate_id : Z;
  interview_name : string;
  questions : list question_item;
  groq_api_key : option string;
  rime_api_key : option string;
  (** [rec.AcceptWaveform(audio); json.loads(rec.Result()).get("text", "")]
      at the n-th call: the text, or the exception of the backend. *)
  recognizer : nat → bytes → fault + string;
  extract_text_from_pdf : string → fault + string;
  generate_resume_questions : string → fault + list string;
  (** What the operating system answers when asked to create or to open
      for writing what a path names, for a reason that the layout of the
      disk does not show (a missing permission, a read-only file system):
      the error raised, if any. *)
  os_error : string → option exn
}.

(** What the session mutates or consumes. *)
Record state := State {
  transcript : list entry;
  recording : bool;
  _stop_recording : bool;
  _quit_flag : bool;
  trace : list event;
  dirs : gset string;
  files : gmap string string;
  key_waits : list (list key);
  captures : list capture_script;
  stt_calls : nat
}.

Definition emit (evs : list event) (s : state) : state :=
  State (transcript s) (recording s) (_stop_recording s) (_quit_flag s)
        (trace s ++ evs) (dirs s) (files s) (key_waits s) (captures s)
        (stt_calls s).

Definition set_recording (b : bool) (s : state) : state :=
  State (transcript s) b (_stop_recording s) (_quit_flag s)
        (trace s) (dirs s) (files s) (key_waits s) (captures s) (stt_calls s).

Definition set_stop_recording (b : bool) (s : state) : state :=
  State (transcript s) (recording s) b (_quit_flag s)
        (trace s) (dirs s) (files s) (key_waits s) (captures s) (stt_calls s).

Definition set_quit_flag (b : bool) (s : state) : state :=
  State (transcript s) (recording s) (_stop_recording s) b
        (trace s) (dirs s) (files s) (key_waits s) (captures s) (stt_calls s).

Definition append_transcript (e : entry) (s : state) : state :=
  State (transcript s ++ [e]) (recording s) (_stop_recording s) (_quit_flag s)
        (trace s) (dirs s) (files s) (key_waits s) (captures s) (stt_calls s).

Definition set_key_waits (w : list (list key)) (s : state) : state :=
  State (transcript s) (recording s) (_stop_recording s) (_quit_flag s)
        (trace s) (dirs s) (files s) w (captures s) (stt_calls s).

Definition set_captures (c : list capture_script) (s : state) : state :=
  State (transcript s) (recording s) (_stop_recording s) (_quit_flag s)
        (trace s) (dirs s) (files s) (key_waits s) c (stt_calls s).

Definition count_stt_call (s : state) : state :=
  State (transcript s) (recording s) (_stop_recording s) (_quit_flag s)
        (trace s) (dirs s) (files s) (key_waits s) (captures s)
        (S (stt_calls s)).

Definition makedirs (d : string) (s : state) : state :=
  State (transcript s) (recording s) (_stop_recording s) (_quit_flag s)
        (trace s) ({[ d ]} ∪ dirs s) (files s)
        (key_waits s) (captures s) (stt_calls s).

(** [os.path.exists(p)]: [p] names a directory or a regular file. *)
Definition path_exists (p : string) (s : state) : bool :=
  bool_decide (p ∈ dirs s) || bool_decide (is_Some (files s !! p)).

(** The directories on the way to a path: the texts before each of its
    separators, the shortest first. *)
Fixpoint ancestors_from (pre s : string) : list string :=
  match s with
  | EmptyString => []
  | String c s' =>
      (if bool_decide (c = "/"%char) then [pre] else [])
      ++ ancestors_from (pre +:+ String c EmptyString) s'
  end.

Definition ancestors (path : string) : list string := ancestors_from "" path.

(** What [open(path, 'w')] raises, if anything, by the layout of the disk.
    The first text on the way (the root aside) that names no directory
    decides: [NotADirectoryError] when it names a regular file,
    [FileNotFoundError] when it names nothing; and [path] itself must not
    name a directory. *)
Definition open_error (path : string) (s : state) : option exn :=
  match find (λ a, negb (bool_decide (a = "")) && negb (bool_decide (a ∈ dirs s)))
             (ancestors path) with
  | Some a =>
      if bool_decide (is_Some (files s !! a))
      then Some (OtherException "NotADirectoryError")
      else Some (FileNotFoundError path)
  | None =>
      if bool_decide (path ∈ dirs s) then Some (OtherException "IsADirectoryError")
      else None
  end.

(** One write to a file that [open(path, 'w')] has opened: the file is
    created or truncated, then holds exactly [content]. *)
Definition write_file (path content : string) (s : state) : state :=
  State (transcript s) (recording s) (_stop_recording s) (_quit_flag s)
        (trace s ++ [EvWrite path content]) (dirs s)
        (<[path := content]> (files s))
        (key_waits s) (captures s) (stt_calls s).

(** ** Computations *)

Definition M (A : Type) : Type := state → option (result A * state).

Definition ret {A} (a : A) : M A := λ s, Some (Ok a, s).

Definition raise {A} (e : exn) : M A := λ s, Some (Raise e, s).

Definition bind {A B} (m : M A) (k : A → M B) : M B :=
  λ s, match m s with
       | None => None
       | Some (Ok a, s') => k a s'
       | Some (Raise e, s') => Some (Raise e, s')
       end.

Notation "'let*' x ':=' m 'in' k" := (bind m (λ x, k))
  (at level 10, x name, m at level 100, k at level 200).

(** A state change that cannot fail. *)
Definition act (f : state → state) : M unit := λ s, Some (Ok tt, f s).

(** [try: m  except <clauses>] where [h e] is the body of the first clause
    matching [e], or [None] when no clause matches. *)
Definition try_except {A} (m : M A) (h : exn → option (M A)) : M A :=
  λ s, match m s with
       | Some (Raise e, s') =>
           match h e with
           | Some k => k s'
           | None => Some (Raise e, s')
           end
       | other => other
       end.

(** [try: m  finally: fin]: [fin] runs however [m] ends; an exception of
    [m] is re-raised after it, unless [fin] itself raises. *)
Definition try_finally {A} (m : M A) (fin : M unit) : M A :=
  λ s, match m s with
       | None => None
       | Some (r, s') =>
           match fin s' with
           | None => None
           | Some (Ok _, s'') => Some (r, s'')
           | Some (Raise e, s'') => Some (Raise e, s'')
           end
       end.

(** ** AudioHandler.listen_for_audio *)

(** The [on_press] callback of the capture listener. *)
Definition on_press_capture (k : key) (s : state) : state :=
  match char_is k "r" with
  | None => s
  | Some true => set_stop_recording true s
  | Some false =>
      match char_is k "q" with
      | Some true => set_quit_flag true s
      | _ => s
      end
  end.

Definition deliver (ks : list key) (s : state) : state :=
  foldl (λ s k, on_press_capture k s) s ks.

(** The [while self.recording] loop, one [tick] per turn. *)
Fixpoint read_loop (max_duration start_time : Q) (ticks : list tick)
    (frames : list bytes) (s : state) : option (result (list bytes) * state) :=
  match ticks with
  | [] => None
  | tk :: ticks' =>
      let s := deliver (tk_keys tk) s in
      if negb (recording s) then Some (Ok frames, s)
      else if _stop_recording s || _quit_flag s then
        Some (Ok frames, set_recording false s)
      else if negb (Qle_bool (tk_now tk - start_time)%Q max_duration) then
        Some (Ok frames, set_recording false s)
      else
        match tk_read tk with
        | inl f => Some (Raise (exn_of_fault f), s)
        | inr data => read_loop max_duration start_time ticks' (frames ++ [data]) s
        end
  end.

Definition listen_for_audio (max_duration : Q) : M bytes :=
  λ s, match captures s with
       | [] => None
       | cs :: rest =>
           let s := set_captures rest s in
           let s := set_quit_flag false (set_stop_recording false (set_recording true s)) in
           let s := emit [EvStreamOpen; EvStreamStart] s in
           let s := emit [EvWatcherStart] s in
           match read_loop max_duration (cs_start cs) (cs_ticks cs) [] s with
           | None => None
           | Some (Raise e, s) =>
               (* the [with] block unwinds: the listener is stopped by its
                  [__exit__]; lines 71-75 are skipped *)
               Some (Raise e, emit [EvWatcherStop] (deliver (cs_late cs) s))
           | Some (Ok frames, s) =>
               let s := emit [EvWatcherStop] (deliver (cs_late cs) s) in
               let s := emit [EvStreamStop; EvStreamClose] s in
               if _quit_flag s then Some (Raise KeyboardInterrupt, s)
               else Some (Ok (concat frames), s)
           end
       end.

(** ** JSON output of [json.dump(..., indent=4)] *)

Module Json.

Definition dquote : ascii := "034"%char.
Definition backslash : ascii := "092"%char.
Definition newline : string := String "010"%char EmptyString.

Definition hex_digit (n : nat) : ascii :=
  if (n <? 10)%nat then ascii_of_nat (48 + n) else ascii_of_nat (87 + n).

(** The code points of a text, read off its UTF-8 encoding.  A byte
    sequence that encodes no text does not arise; it is read byte by
    byte. *)
Definition continuation (c : ascii) : bool :=
  let n := N_of_ascii c in (128 <=? n)%N && (n <? 192)%N.

Definition low_bits (c : ascii) : N := (N_of_ascii c - 128)%N.

Fixpoint decode (s : string) : list N :=
  match s with
  | EmptyString => []
  | String b s1 =>
      let n := N_of_ascii b in
      match s1 with
      | EmptyString => [n]
      | String c1 s2 =>
          if (192 <=? n)%N && (n <? 224)%N && continuation c1
          then ((n - 192) * 64 + low_bits c1)%N :: decode s2
          else
            match s2 with
            | EmptyString => n :: decode s1
            | String c2 s3 =>
                if (224 <=? n)%N && (n <? 240)%N && continuation c1 && continuation c2
                then ((n - 224) * 4096 + low_bits c1 * 64 + low_bits c2)%N :: decode s3
                else
                  match s3 with
                  | EmptyString => n :: decode s1
                  | String c3 s4 =>
                      if (240 <=? n)%N && (n <? 248)%N && continuation c1
                         && continuation c2 && continuation c3
                      then ((n - 240) * 262144 + low_bits c1 * 4096
                            + low_bits c2 * 64 + low_bits c3)%N :: decode s4
                      else n :: decode s1
                  end
            end
      end
  end.

(** [\uXXXX], four lower-case hexadecimal digits. *)
Definition u4 (n : N) : string :=
  String backslash
    (String "u"
       (String (hex_digit (N.to_nat ((n / 4096) mod 16)))
          (String (hex_digit (N.to_nat ((n / 256) mod 16)))
             (String (hex_digit (N.to_nat ((n / 16) mod 16)))
                (String (hex_digit (N.to_nat (n mod 16))) EmptyString))))).

(** One code point as the standard encoder writes it with
    [ensure_ascii=True]: quote and backslash, the five short control
    escapes, the character itself from [' '] to ['~'], and for every other
    code point [\uXXXX], one up to the end of the basic plane, a
    surrogate pair above. *)
Definition escape_code_point (n : N) : string :=
  if (n =? 34)%N then String backslash (String dquote EmptyString)
  else if (n =? 92)%N then String backslash (String backslash EmptyString)
  else if (n =? 10)%N then String backslash "n"
  else if (n =? 13)%N then String backslash "r"
  else if (n =? 9)%N then String backslash "t"
  else if (n =? 8)%N then String backslash "b"
  else if (n =? 12)%N then String backslash "f"
  else if (32 <=? n)%N && (n <=? 126)%N then String (ascii_of_N n) EmptyString
  else if (n <? 65536)%N then u4 n
  else u4 (55296 + (n - 65536) / 1024) +:+ u4 (56320 + (n - 65536) mod 1024).

Fixpoint escape_all (cps : list N) : string :=
  match cps with
  | [] => EmptyString
  | n :: cps' => escape_code_point n +:+ escape_all cps'
  end.

Definition escape (s : string) : string := escape_all (decode s).

Definition str (s : string) : string :=
  String dquote (escape s +:+ String dquote EmptyString).

Definition member (indent name value : string) : string :=
  indent +:+ str name +:+ ": " +:+ str value.

(** One transcript entry, a dict of three string members in insertion
    order, printed at nesting depth one. *)
Definition dump_entry (e : entry) : string :=
  "{" +:+ newline
  +:+ member "        " "question_id" (question_id e) +:+ "," +:+ newline
  +:+ member "        " "question" (question e) +:+ "," +:+ newline
  +:+ member "        " "answer" (answer e) +:+ newline
  +:+ "    }".

Fixpoint dump_items (es : list entry) : string :=
  match es with
  | [] => EmptyString
  | [e] => "    " +:+ dump_entry e +:+ newline
  | e :: es' => "    " +:+ dump_entry e +:+ "," +:+ newline +:+ dump_items es'
  end.

Definition dump (es : list entry) : string :=
  match es with
  | [] => "[]"
  | _ => "[" +:+ newline +:+ dump_items es +:+ "]"
  end.

End Json.

(** ** AIInterviewer *)

Section Interviewer.

Variable cfg : config.

(** Calling an external collaborator: its value, or its exception. *)
Definition call {A} (r : fault + A) : M A :=
  match r with
  | inl f => raise (exn_of_fault f)
  | inr a => ret a
  end.

Definition exn_message (e : exn) : string :=
  match e with
  | KeyboardInterrupt => ""
  | FileNotFoundError m | OtherException m => m
  end.

Definition speak (text : string) : M unit := act (emit [EvSpeak text]).

Definition speech_to_text (audio_bytes : bytes) : M (option string) :=
  match audio_bytes with
  | [] => ret None
  | _ =>
      try_except
        (let* text :=
           (λ s, call (recognizer cfg (stt_calls s) audio_bytes) (count_stt_call s)) in
         if bool_decide (text = "") then ret None else ret (Some text))
        (λ e, if is_Exception e then
                Some (let* _ := act (emit [EvLogError ("Speech-to-text error: " +:+ exn_message e)]) in
                      ret None)
              else None)
  end.

(** The [on_press] callback of [wait_for_key]: the updated dict, and
    whether the listener keeps running (the callback did not return
    [False]). *)
Definition on_press_wait (k : key) (kp : key_pressed) : key_pressed * bool :=
  match char_is k "e" with
  | None => (kp, true)
  | Some true => (KeyPressed true (kp_q kp), false)
  | Some false =>
      match char_is k "q" with
      | Some true => (KeyPressed (kp_e kp) true, false)
      | _ => (kp, true)
      end
  end.

(** [listener.join()]: the callback runs on each key until it stops the
    listener; a script that ends first stands for a listener thread that
    ended by itself. *)
Fixpoint join_listener (ks : list key) (kp : key_pressed) : key_pressed :=
  match ks with
  | [] => kp
  | k :: ks' =>
      let '(kp', running) := on_press_wait k kp in
      if running then join_listener ks' kp' else kp'
  end.

Definition wait_for_key : M key_pressed :=
  λ s, match key_waits s with
       | [] => None
       | ks :: rest =>
           Some (Ok (join_listener ks (KeyPressed false false)),
                 emit [EvPrompt] (set_key_waits rest s))
       end.

Definition transcript_dir : string := "interview_transcript".

Definition starts_with_slash (s : string) : bool :=
  match s with
  | String c _ => bool_decide (c = "/"%char)
  | EmptyString => false
  end.

Fixpoint ends_with_slash (s : string) : bool :=
  match s with
  | EmptyString => false
  | String c EmptyString => bool_decide (c = "/"%char)
  | String _ s' => ends_with_slash s'
  end.

(** [os.path.join(a, b)] of [posixpath]: an absolute [b] discards [a]; a
    separator is inserted unless [a] is empty or ends with one. *)
Definition path_join (a b : string) : string :=
  if starts_with_slash b then b
  else if bool_decide (a = "") || ends_with_slash a then a +:+ b
  else a +:+ "/" +:+ b.

Definition transcript_filename : string :=
  path_join transcript_dir
    ("candidate_" +:+ pretty (candidate_id cfg) +:+ "_" +:+ interview_name cfg +:+ ".json").

(** [os.makedirs(d)] for a path that names nothing yet. *)
Definition make_directory (d : string) : M unit :=
  λ s, match os_error cfg d with
       | Some e => Some (Raise e, s)
       | None => act (makedirs d) s
       end.

(** [open(path, 'w')]: the refusal of the operating system, or else the
    error that the layout of the disk gives. *)
Definition open_for_writing (path : string) : M unit :=
  λ s, match os_error cfg path with
       | Some e => Some (Raise e, s)
       | None =>
           match open_error path s with
           | Some e => Some (Raise e, s)
           | None => Some (Ok tt, s)
           end
       end.

Definition save_transcript : M unit :=
  let* _ :=
    (λ s, if path_exists transcript_dir s then ret tt s
          else make_directory transcript_dir s) in
  let* _ := open_for_writing transcript_filename in
  λ s, act (write_file transcript_filename (Json.dump (transcript s))) s.

Definition placeholder : string := "No answer recorded.".

(** [answer_text or "No answer recorded."] *)
Definition or_placeholder (answer_text : option string) : string :=
  match answer_text with
  | Some t => if bool_decide (t = "") then placeholder else t
  | None => placeholder
  end.

Definition _ask_question_and_record (question question_id : string)
  : M (option string) :=
  let* _ := speak question in
  let* key := wait_for_key in
  if kp_q key then ret (Some "quit")
  else if kp_e key then
    let* answer_bytes := listen_for_audio 30 in
    match answer_bytes with
    | _ :: _ =>
        let* answer_text := speech_to_text answer_bytes in
        let* _ := act (append_transcript
                         (Entry question_id question (or_placeholder answer_text))) in
        ret None
    | [] =>
        let* _ := act (append_transcript (Entry question_id question placeholder)) in
        ret None
    end
  else ret None.

(** [for x in xs: body(x)] *)
Fixpoint for_each {A} (xs : list A) (body : A → M unit) : M unit :=
  match xs with
  | [] => ret tt
  | x :: xs' => let* _ := body x in for_each xs' body
  end.

(** [if self._ask_question_and_record(q, qid) == "quit": raise KeyboardInterrupt] *)
Definition ask_or_quit (question question_id : string) : M unit :=
  let* r := _ask_question_and_record question question_id in
  if bool_decide (r = Some "quit") then raise KeyboardInterrupt else ret tt.

(** [not os.getenv(name)] *)
Definition unset (v : option string) : bool :=
  match v with
  | None => true
  | Some t => bool_decide (t = "")
  end.

Definition intro : string :=
  "Hello, and welcome to your " +:+ interview_name cfg +:+
  " interview. My name is Rime, and I'll be guiding you through some questions today. Let's begin.".

Definition resume_announcement : string :=
  "Great. Now I will ask a few questions based on your resume.".
Definition no_questions_message : string :=
  "I couldn't generate any questions from your resume, but we'll proceed.".
Definition no_resume_message : string :=
  "I couldn't find a resume for you, so we'll skip the resume-based questions.".
Definition resume_issue_message : string :=
  "I ran into an issue processing your resume, so we'll skip that part.".
Definition closing : string :=
  "Thank you for your time. The interview is now complete.".

Definition resume_path : string :=
  path_join "resumes" ("r" +:+ pretty (candidate_id cfg) +:+ ".pdf").

(** Phase 1, lines 196-198. *)
Definition fixed_phase : M unit :=
  for_each (questions cfg)
    (λ item, ask_or_quit (qi_question item) (qi_id item)).

(** The body of the inner [try], lines 204-212. *)
Definition resume_body : M unit :=
  let* resume_text := call (extract_text_from_pdf cfg resume_path) in
  let* resume_questions := call (generate_resume_questions cfg resume_text) in
  match resume_questions with
  | [] => speak no_questions_message
  | _ => for_each resume_questions (λ question, ask_or_quit question "dynamic")
  end.

(** The inner [try] with its two [except] clauses, lines 203-218. *)
Definition resume_phase : M unit :=
  try_except resume_body
    (λ e, match e with
          | FileNotFoundError _ => Some (speak no_resume_message)
          | OtherException _ => Some (speak resume_issue_message)
          | KeyboardInterrupt => None
          end).

(** The body of the outer [try], lines 195-218. *)
Definition interview_body : M unit :=
  let* _ := fixed_phase in
  let* _ := speak resume_announcement in
  resume_phase.

(** The [finally] clause, lines 223-224. *)
Definition finalize : M unit :=
  let* _ := save_transcript in
  speak closing.

Definition start_interview : M unit :=
  if unset (groq_api_key cfg) || unset (rime_api_key cfg) then ret tt
  else
    let* _ := speak intro in
    try_finally
      (try_except interview_body
         (λ e, match e with
               | KeyboardInterrupt => Some (ret tt)
               | _ => None
               end))
      finalize.

End Interviewer.

(** ** Vocabulary of the specification *)

(** The three outcomes of a capture, and how a caller of
    [listen_for_audio] tells them apart: [KeyboardInterrupt] is the
    cancellation signal, an empty byte string is an empty result. *)
Inductive capture_outcome :=
| Captured (audio : bytes)
| StoppedEmpty
| QuitRequested.

Definition outcome_of (r : result bytes) : option capture_outcome :=
  match r with
  | Ok [] => Some StoppedEmpty
  | Ok (b :: audio) => Some (Captured (b :: audio))
  | Raise KeyboardInterrupt => Some QuitRequested
  | Raise _ => None
  end.

(** The stop key and the quit key of a capture. *)
Definition is_stop (k : key) : bool :=
  match char_is k "r" with Some true => true | _ => false end.

Definition is_quit (k : key) : bool :=
  match char_is k "q" with Some true => true | _ => false end.

(** [time.time() - start_time > max_duration] at a turn. *)
Definition over_time (max_duration start_time : Q) (tk : tick) : bool :=
  negb (Qle_bool (tk_now tk - start_time)%Q max_duration).

Definition key_seen (tk : tick) : bool :=
  existsb is_stop (tk_keys tk) || existsb is_quit (tk_keys tk).

Definition read_ok (tk : tick) : bool :=
  match tk_read tk with inr _ => true | inl _ => false end.

(** A turn at which the loop goes on: no stop or quit key so far, the limit
    not passed, and the read delivered a chunk. *)
Definition idle_tick (max_duration start_time : Q) (tk : tick) : bool :=
  negb (key_seen tk) && negb (over_time max_duration start_time tk) && read_ok tk.

(** The chunks read over a run of turns. *)
Definition chunks (ticks : list tick) : list bytes :=
  omap (λ tk, match tk_read tk with inr d => Some d | inl _ => None end) ticks.

Definition is_write (e : event) : bool :=
  match e with EvWrite _ _ => true | _ => false end.

Definition is_prompt (e : event) : bool :=
  match e with EvPrompt => true | _ => false end.

(** Events of the audio device, the key watcher and the error log. *)
Definition is_device (e : event) : bool :=
  match e with
  | EvStreamOpen | EvStreamStart | EvWatcherStart | EvWatcherStop
  | EvStreamStop | EvStreamClose | EvLogError _ => true
  | _ => false
  end.

Definition count_prompts (evs : list event) : nat := length (filter is_prompt evs).

(** The events of one capture: the stream and the watcher are acquired; the
    watcher is always stopped; the stream is stopped and closed when
    [released] holds. *)
Definition capture_events (released : bool) : list event :=
  [EvStreamOpen; EvStreamStart; EvWatcherStart; EvWatcherStop]
  ++ (if released then [EvStreamStop; EvStreamClose] else []).

(** The answer recorded for captured audio [data] when the recogniser is at
    its [n]-th call. *)
Definition answer_for (cfg : config) (n : nat) (data : bytes) : string :=
  match data with
  | [] => placeholder
  | _ => match recognizer cfg n data with
         | inr text => if bool_decide (text = "") then placeholder else text
         | inl _ => placeholder
         end
  end.

(** What the resume tooling produces for the candidate. *)
Definition resume_outcome (cfg : config) : fault + list string :=
  match extract_text_from_pdf cfg (resume_path cfg) with
  | inl f => inl f
  | inr text => generate_resume_questions cfg text
  end.

Definition resume_questions_of (cfg : config) : list string :=
  match resume_outcome cfg with inr qs => qs | inl _ => [] end.

(** The announcement spoken when the resume phase asks nothing. *)
Definition skip_message (cfg : config) : string :=
  match resume_outcome cfg with
  | inl (NotFound _) => no_resume_message
  | inl (Failure _) => resume_issue_message
  | inr _ => no_questions_message
  end.

Definition entry_key (e : entry) : string * string := (question_id e, question e).
Definition fixed_key (item : question_item) : string * string :=
  (qi_id item, qi_question item).
Definition dynamic_key (q : string) : string * string := ("dynamic", q).

(** Everything but the three flags of the audio handler is the same. *)
Definition same_but_flags (s s' : state) : Prop :=
  transcript s' = transcript s ∧ trace s' = trace s ∧ dirs s' = dirs s ∧
  files s' = files s ∧ key_waits s' = key_waits s ∧ captures s' = captures s ∧
  stt_calls s' = stt_calls s.

(** The session state after the introduction has been spoken. *)
Definition after_intro (cfg : config) (s : state) : state :=
  emit [EvSpeak (intro cfg)] s.

Definition keys_present (cfg : config) : bool :=
  negb (unset (groq_api_key cfg) || unset (rime_api_key cfg)).

(** Whether the audio stream has been stopped and closed when a capture
    ends with [r]. *)
Definition released_on (r : result bytes) : bool :=
  match r with
  | Ok _ | Raise KeyboardInterrupt => true
  | Raise _ => false
  end.

(** The state in which the read loop of a capture starts. *)
Definition capture_start (rest : list capture_script) (s : state) : state :=
  emit [EvWatcherStart]
    (emit [EvStreamOpen; EvStreamStart]
       (set_quit_flag false (set_stop_recording false
          (set_recording true (set_captures rest s))))).

(** The state after [speech_to_text] has run on the captured [data]: the
    recogniser is called on non-empty audio only, and its failure is
    logged. *)
Definition after_stt (cfg : config) (data : bytes) (s : state) : state :=
  match data with
  | [] => s
  | _ => match recognizer cfg (stt_calls s) data with
         | inr _ => count_stt_call s
         | inl f => emit [EvLogError ("Speech-to-text error: " +:+ fault_message f)]
                      (count_stt_call s)
         end
  end.

(** The state once the answer to a question has been recorded. *)
Definition record_answer (cfg : config) (q qid : string) (data : bytes) (s : state)
  : state :=
  append_transcript (Entry qid q (answer_for cfg (stt_calls s) data))
    (after_stt cfg data s).

(** The state once a question has been spoken and the key prompt answered. *)
Definition prompted (q : string) (rest : list (list key)) (s : state) : state :=
  emit [EvPrompt] (set_key_waits rest (emit [EvSpeak q] s)).

Definition no_key : key_pressed := KeyPressed false false.

Definition no_writes (evs : list event) : bool :=
  forallb (λ e, negb (is_write e)) evs.

(** From [s] to [s'] the questions [presented] were put to the candidate,
    one prompt each: the trace grew without any file write, the files are
    untouched, and the transcript grew by entries for some of the presented
    questions, in their order. *)
Definition progress (s s' : state) (presented : list (string * string)) : Prop :=
  ∃ evs added,
    trace s' = trace s ++ evs ∧ transcript s' = transcript s ++ added ∧
    files s' = files s ∧ dirs s' = dirs s ∧
    count_prompts evs = length presented ∧ no_writes evs = true ∧
    map entry_key added `sublist_of` presented.

(** The state once [save_transcript] is through lines 152-154: the
    transcript directory was there, or has been made, or could not be
    made. *)
Definition prepared (cfg : config) (s : state) : state :=
  if path_exists transcript_dir s then s
  else match os_error cfg transcript_dir with
       | Some _ => s
       | None => makedirs transcript_dir s
       end.

(** What [save_transcript] raises, if anything: the error of making the
    transcript directory, or else that of opening the transcript file. *)
Definition save_failure (cfg : config) (s : state) : option exn :=
  match (if path_exists transcript_dir s then None
         else os_error cfg transcript_dir) with
  | Some e => Some e
  | None =>
      match os_error cfg (transcript_filename cfg) with
      | Some e => Some e
      | None => open_error (transcript_filename cfg) (prepared cfg s)
      end
  end.

(** The state after a [save_transcript] that returns: the directory exists,
    the file holds the dump of the transcript. *)
Definition saved (cfg : config) (s : state) : state :=
  write_file (transcript_filename cfg) (Json.dump (transcript s)) (prepared cfg s).

(** The state after the [finally] clause. *)
Definition finalized (cfg : config) (s : state) : state :=
  emit [EvSpeak closing] (saved cfg s).

(** How [start_interview] ends when the outer [try] body ends with [r]:
    the quit signal is absorbed, anything else is passed on. *)
Definition session_result (r : result unit) : result unit :=
  match r with
  | Raise KeyboardInterrupt => Ok tt
  | _ => r
  end.

(** How [start_interview] ends when the outer [try] body has ended with [r]
    in state [s]: the [finally] clause saves and speaks, or the error of
    saving the transcript takes over, nothing being written or spoken. *)
Definition session_end (cfg : config) (r : result unit) (s : state)
  : result unit * state :=
  match save_failure cfg s with
  | Some e => (Raise e, prepared cfg s)
  | None => (session_result r, finalized cfg s)
  end.

(** The statement [text] was spoken among the events [evs]. *)
Definition spoken (text : string) (evs : list event) : bool :=
  existsb (λ e, match e with
                | EvSpeak t => bool_decide (t = text)
                | _ => false
                end) evs.

(** The text [part] stands somewhere in the text [whole]. *)
Definition occurs_in (part whole : string) : Prop :=
  ∃ before after, whole = before +:+ part +:+ after.

(** ** Sample sessions *)

Module Sample.

Definition chr (c : ascii) : key := KeyCode (Some c).

Definition chunk : bytes := [Byte.x52; Byte.x49; Byte.x46; Byte.x46].

Definition fixed_questions : list question_item :=
  [QuestionItem "q1" "What is overfitting?";
   QuestionItem "q2" "What is a tensor?"].

(** A candidate without a resume; the recogniser hears the same sentence
    every time. *)
Definition cfg : config :=
  Config 7 "ml" fixed_questions (Some "gsk-key") (Some "rime-key")
    (λ _ _, inr "a model that memorises noise")
    (λ _, inl (NotFound "resumes/r7.pdf"))
    (λ _, inr [])
    (λ _, None).

(** A candidate whose resume yields two questions. *)
Definition resume_cfg : config :=
  Config 7 "ml" fixed_questions (Some "gsk-key") (Some "rime-key")
    (λ _ _, inr "a model that memorises noise")
    (λ _, inr "MSc thesis on speech recognition")
    (λ _, inr ["Tell me about your thesis."; "Why this role?"])
    (λ _, None).

(** A recogniser backend that fails. *)
Definition deaf_cfg : config :=
  Config 7 "ml" fixed_questions (Some "gsk-key") (Some "rime-key")
    (λ _ _, inl (Failure "recognizer crashed"))
    (λ _, inl (NotFound "resumes/r7.pdf"))
    (λ _, inr [])
    (λ _, None).

(** An interview whose name holds a path separator. *)
Definition nested_cfg : config :=
  Config 7 "a/b" fixed_questions (Some "gsk-key") (Some "rime-key")
    (λ _ _, inr "a model that memorises noise")
    (λ _, inl (NotFound "resumes/r7.pdf"))
    (λ _, inr [])
    (λ _, None).

Definition fresh (waits : list (list key)) (caps : list capture_script) : state :=
  State [] false false false [] ∅ ∅ waits caps 0.

(** A text between double quotes, as it stands in a file. *)
Definition quoted (text : string) : string :=
  String Json.dquote (text +:+ String Json.dquote EmptyString).

Definition idle (now : Q) : tick := Tick [] now (inr chunk).

(** One chunk is read, then [R] stops the recording. *)
Definition stop_capture : capture_script :=
  CaptureScript 100 [idle (1001 # 10); Tick [chr "R"] (1005 # 10) (inr chunk)] [].

(** [r] at once: nothing is read. *)
Definition empty_capture : capture_script :=
  CaptureScript 100 [Tick [chr "r"] (1001 # 10) (inr chunk)] [].

(** One chunk is read, then [q] is pressed. *)
Definition quit_capture : capture_script :=
  CaptureScript 100 [idle (1001 # 10); Tick [chr "q"] (1005 # 10) (inr chunk)] [].

(** No key at all: two chunks are read before the limit of 30 seconds is
    passed. *)
Definition timeout_capture : capture_script :=
  CaptureScript 100 [idle 110; idle 125; idle (1301 # 10)] [].

(** The clock reads exactly [start_time + 30] at the first poll. *)
Definition exact_limit_capture : capture_script :=
  CaptureScript 100 [idle 130; idle 131] [].

(** The first read of the stream fails. *)
Definition broken_capture : capture_script :=
  CaptureScript 100 [Tick [] (1001 # 10) (inl (Failure "Unanticipated host error"))] [].

(** What a computation leaves behind, for use as a concrete state. *)
Definition state_after {A} (o : option (result A * state)) : state :=
  match o with
  | Some (_, s) => s
  | None => fresh [] []
  end.

End Sample.

(** ** Further vocabulary: keys, playback, reading a saved transcript *)

(** The advance key of [wait_for_key]. *)
Definition is_advance (k : key) : bool :=
  match char_is k "e" with Some true => true | _ => false end.

(** The key that ends the listener of [wait_for_key], if any. *)
Definition deciding_key (ks : list key) : option key :=
  find (λ k, is_advance k || is_quit k) ks.

(** *** The body of [speak], lines 99-110

    Below the single [EvSpeak] event of [speak]: the text is printed, a
    temporary file is created and kept ([delete=False]), [rime_tts] writes
    the audio into it, [mpg123] plays it, and [ffplay] is tried when
    [mpg123] is not installed ([subprocess.run] raises [FileNotFoundError]);
    any [Exception] is printed and logged. *)
Record playback_world := PlaybackWorld {
  pw_tempfile : fault + string;
  pw_rime_tts : string → string → fault + unit;
  pw_mpg123 : string → fault + unit;
  pw_ffplay : string → fault + unit
}.

Inductive playback_event :=
| PbPrint (text : string)
| PbTempFile (name : string)
| PbSynthesized (text name : string)
| PbPlayed (player name : string)
| PbLogError (msg : string).

(** The inner [try] of [speak], lines 104-107: what it raises, if anything,
    and the events. *)
Definition play_file (w : playback_world) (name : string)
  : result unit * list playback_event :=
  match pw_mpg123 w name with
  | inr _ => (Ok tt, [PbPlayed "mpg123" name])
  | inl (NotFound _) =>
      match pw_ffplay w name with
      | inr _ => (Ok tt, [PbPlayed "ffplay" name])
      | inl f => (Raise (exn_of_fault f), [])
      end
  | inl f => (Raise (exn_of_fault f), [])
  end.

(** The [with] block of [speak], lines 101-107. *)
Definition synthesize_and_play (w : playback_world) (text : string)
  : result unit * list playback_event :=
  match pw_tempfile w with
  | inl f => (Raise (exn_of_fault f), [])
  | inr name =>
      match pw_rime_tts w text name with
      | inl f => (Raise (exn_of_fault f), [PbTempFile name])
      | inr _ =>
          let '(r, evs) := play_file w name in
          (r, PbTempFile name :: PbSynthesized text name :: evs)
      end
  end.

Definition speak_playback (w : playback_world) (text : string)
  : result unit * list playback_event :=
  match synthesize_and_play w text with
  | (Ok _, evs) => (Ok tt, PbPrint text :: evs)
  | (Raise e, evs) =>
      if is_Exception e
      then (Ok tt, PbPrint text :: evs ++ [PbLogError ("TTS error: " +:+ exn_message e)])
      else (Raise e, PbPrint text :: evs)
  end.

(** Whether the text was heard, and through which player. *)
Definition played_by (evs : list playback_event) : option string :=
  head (omap (λ e, match e with PbPlayed player _ => Some player | _ => None end) evs).

Definition logged_errors (evs : list playback_event) : list string :=
  omap (λ e, match e with PbLogError m => Some m | _ => None end) evs.

(** *** Reading back the file written by [save_transcript] *)

Module JsonRead.







End JsonRead.

(** Whether a text is made of line feeds and printable ASCII characters
    only. *)
Fixpoint plain_ascii (s : string) : bool :=
  match s with
  | EmptyString => true
  | String c s' =>
      let n := nat_of_ascii c in
      ((n =? 10)%nat || (32 <=? n)%nat && (n <=? 126)%nat) && plain_ascii s'
  end.

(** Whether the character [c] does not occur in [s]. *)
Fixpoint lacks (c : ascii) (s : string) : bool :=
  match s with
  | EmptyString => true
  | String d s' => negb (bool_decide (d = c)) && lacks c s'
  end.



(** *** load_questions, lines 86-96 *)

(** A value as [json.load] returns it; an object keeps its members in the
    order of the file, as a Python [dict] does. *)
Inductive json :=
| JNull
| JBool (b : bool)
| JNumber (n : Z)
| JString (s : string)
| JArray (items : list json)
| JObject (members : list (string * json)).

(** How [load_questions] ends: with the value it returns, with [exit(1)],
    or with an exception of the named class. *)
Inductive load_outcome :=
| Loaded (v : json)
| SystemExit (code : Z)
| LoadError (class : string).

(** [d[k]] on a dict. *)
Definition dict_get (k : string) (members : list (string * json)) : option json :=
  snd <$> find (λ kv, bool_decide (kv.1 = k)) members.

(** [v['questions']] on an arbitrary value. *)
Definition subscript_questions (v : json) : load_outcome :=
  match v with
  | JObject members =>
      match dict_get "questions" members with
      | Some qs => Loaded qs
      | None => LoadError "KeyError"
      end
  | JArray _ | JString _ | JNull | JBool _ | JNumber _ => LoadError "TypeError"
  end.

(** [os.path.join('questions', f'{interview_name}.json')] *)
Definition questions_path (interview_name : string) : string :=
  path_join "questions" (interview_name +:+ ".json").

(** What a path names, as far as [load_questions] can tell: nothing that
    [os.path.exists] sees, a directory, a file that [open] refuses with an
    error of the named class, or a file that can be read, with its
    content. *)
Inductive node :=
| NoNode
| DirNode
| Unreadable (class : string)
| FileNode (content : string).

(** [disk] tells what each path names; [parse] is [json.load] on a file
    content, [None] when the content is not JSON. *)
Definition load_questions (disk : string → node) (parse : string → option json)
    (interview_name : string) : load_outcome :=
  match disk (questions_path interview_name) with
  | NoNode => SystemExit 1
  | DirNode => LoadError "IsADirectoryError"
  | Unreadable class => LoadError class
  | FileNode content =>
      match parse content with
      | None => LoadError "JSONDecodeError"
      | Some (JObject members) =>
          match members with
          | [] => LoadError "IndexError"
          | (key, _) :: _ =>
              match dict_get key members with
              | Some topic => subscript_questions topic
              | None => LoadError "KeyError"
              end
          end
      | Some _ => LoadError "AttributeError"
      end
  end.

(** * Properties *)

(** ** The computation monad *)

Lemma bind_inv {A B} (m : M A) (k : A → M B) s r s' :
  bind m k s = Some (r, s') →
  (∃ a s1, m s = Some (Ok a, s1) ∧ k a s1 = Some (r, s')) ∨
  (∃ e, m s = Some (Raise e, s') ∧ r = Raise e).
Proof.
  unfold bind. destruct (m s) as [[[a|e] s1]|] eqn:Hm; intros H.
  - left. eauto.
  - right. inversion H; subst. eauto.
  - discriminate.
Qed.

Lemma bind_ok {A B} (m : M A) (k : A → M B) s a s1 :
  m s = Some (Ok a, s1) → bind m k s = k a s1.
Proof. intros H. unfold bind. by rewrite H. Qed.

Lemma bind_raise {A B} (m : M A) (k : A → M B) s e s1 :
  m s = Some (Raise e, s1) → bind m k s = Some (Raise e, s1).
Proof. intros H. unfold bind. by rewrite H. Qed.

Lemma for_each_app {A} (xs ys : list A) (body : A → M unit) s s1 :
  for_each xs body s = Some (Ok tt, s1) →
  for_each (xs ++ ys) body s = for_each ys body s1.
Proof.
  revert s. induction xs as [|x xs IH]; intros s H; simpl in *.
  - unfold ret in H. by inversion H.
  - apply bind_inv in H as [([] & s2 & Hx & Hrest)|(e & _ & ?)]; [|done].
    rewrite (bind_ok _ _ _ _ _ Hx). by apply IH.
Qed.

(** ** The key watcher of a capture *)

Lemma same_but_flags_refl s : same_but_flags s s.
Proof. by repeat split. Qed.

Lemma same_but_flags_trans s1 s2 s3 :
  same_but_flags s1 s2 → same_but_flags s2 s3 → same_but_flags s1 s3.
Proof.
  unfold same_but_flags. intros (?&?&?&?&?&?&?) (?&?&?&?&?&?&?).
  repeat split; congruence.
Qed.

Lemma stop_excludes_quit k : is_stop k = true → is_quit k = false.
Proof.
  destruct k as [[c|]|]; unfold is_stop, is_quit; simpl; try done.
  repeat case_bool_decide; try done. congruence.
Qed.

(** The callback sets one flag at most, by the class of the key. *)
Lemma on_press_capture_eq k s :
  on_press_capture k s =
    if is_stop k then set_stop_recording true s
    else if is_quit k then set_quit_flag true s
    else s.
Proof.
  unfold on_press_capture, is_stop, is_quit.
  destruct k as [[c|]|]; simpl; try done.
  repeat case_bool_decide; done.
Qed.

Lemma on_press_capture_frame k s : same_but_flags s (on_press_capture k s).
Proof.
  rewrite on_press_capture_eq.
  destruct (is_stop k), (is_quit k); by repeat split.
Qed.

Lemma deliver_frame ks s : same_but_flags s (deliver ks s).
Proof.
  revert s. induction ks as [|k ks IH]; intros s; simpl.
  - apply same_but_flags_refl.
  - eapply same_but_flags_trans; [apply on_press_capture_frame|apply IH].
Qed.

Lemma deliver_recording ks s : recording (deliver ks s) = recording s.
Proof.
  revert s. induction ks as [|k ks IH]; intros s; simpl; [done|].
  rewrite IH, on_press_capture_eq. by destruct (is_stop k), (is_quit k).
Qed.

Lemma deliver_stop ks s :
  _stop_recording (deliver ks s) = _stop_recording s || existsb is_stop ks.
Proof.
  revert s. induction ks as [|k ks IH]; intros s; simpl.
  - by rewrite orb_false_r.
  - rewrite IH, on_press_capture_eq.
    destruct (is_stop k) eqn:Hs; simpl.
    + by rewrite orb_true_r.
    + by destruct (is_quit k).
Qed.

Lemma deliver_quit ks s :
  _quit_flag (deliver ks s) = _quit_flag s || existsb is_quit ks.
Proof.
  revert s. induction ks as [|k ks IH]; intros s; simpl.
  - by rewrite orb_false_r.
  - rewrite IH, on_press_capture_eq.
    destruct (is_stop k) eqn:Hs; simpl.
    + by rewrite (stop_excludes_quit _ Hs).
    + destruct (is_quit k); simpl; [by rewrite orb_true_r|done].
Qed.

Lemma deliver_no_key ks s :
  existsb is_stop ks = false → existsb is_quit ks = false → deliver ks s = s.
Proof.
  revert s. induction ks as [|k ks IH]; intros s; simpl; [done|].
  intros [Hs Hss]%orb_false_elim [Hq Hqq]%orb_false_elim.
  rewrite on_press_capture_eq, Hs, Hq. by apply IH.
Qed.

Lemma existsb_app_quit ks1 ks2 :
  existsb is_quit (ks1 ++ ks2) = existsb is_quit ks1 || existsb is_quit ks2.
Proof. apply existsb_app. Qed.

(** ** The read loop *)

Lemma read_loop_frame max_duration start ticks frames s r s' :
  read_loop max_duration start ticks frames s = Some (r, s') →
  same_but_flags s s'.
Proof.
  revert frames s. induction ticks as [|tk ticks IH]; intros frames s; simpl; [done|].
  pose proof (deliver_frame (tk_keys tk) s) as Hd.
  destruct (negb (recording _)); [intros [= <- <-]; done|].
  destruct (_ || _).
  { intros [= <- <-]. eapply same_but_flags_trans; [exact Hd|]. by repeat split. }
  destruct (negb (Qle_bool _ _)).
  { intros [= <- <-]. eapply same_but_flags_trans; [exact Hd|]. by repeat split. }
  destruct (tk_read tk) as [f|data].
  - intros [= <- <-]. done.
  - intros H. eapply same_but_flags_trans; [exact Hd|]. by eapply IH.
Qed.

(** The loop itself raises nothing but the failure of a read. *)
Lemma read_loop_raise max_duration start ticks frames s e s' :
  read_loop max_duration start ticks frames s = Some (Raise e, s') →
  ∃ f, e = exn_of_fault f.
Proof.
  revert frames s. induction ticks as [|tk ticks IH]; intros frames s; simpl; [done|].
  destruct (negb (recording _)); [done|].
  destruct (_ || _); [done|].
  destruct (negb (Qle_bool _ _)); [done|].
  destruct (tk_read tk) as [f|data].
  - intros [= <- <-]. eauto.
  - apply IH.
Qed.

Lemma exn_of_fault_not_quit f : exn_of_fault f ≠ KeyboardInterrupt.
Proof. by destruct f. Qed.

Lemma idle_tick_inv max_duration start tk :
  idle_tick max_duration start tk = true →
  existsb is_stop (tk_keys tk) = false ∧ existsb is_quit (tk_keys tk) = false ∧
  over_time max_duration start tk = false ∧ ∃ d, tk_read tk = inr d.
Proof.
  unfold idle_tick, key_seen, read_ok.
  intros [[Hk Ht]%andb_prop Hr]%andb_prop.
  apply negb_true_iff, orb_false_elim in Hk as [? ?].
  apply negb_true_iff in Ht.
  destruct (tk_read tk) as [|d]; [done|]. eauto.
Qed.

(** Over a run of idle turns the loop only accumulates the chunks read. *)
Lemma read_loop_idle max_duration start pre rest frames s :
  recording s = true → _stop_recording s = false → _quit_flag s = false →
  forallb (idle_tick max_duration start) pre = true →
  read_loop max_duration start (pre ++ rest) frames s =
  read_loop max_duration start rest (frames ++ chunks pre) s.
Proof.
  intros Hrec Hstop Hquit. revert frames.
  induction pre as [|tk pre IH]; intros frames Hidle; simpl.
  - by rewrite app_nil_r.
  - apply andb_prop in Hidle as [Htk Hpre].
    apply idle_tick_inv in Htk as (Hs & Hq & Ht & d & Hd).
    rewrite (deliver_no_key _ _ Hs Hq), Hrec, Hstop, Hquit. simpl.
    unfold over_time in Ht. rewrite Ht. rewrite Hd at 1.
    rewrite IH by done. f_equal.
    unfold chunks. simpl. rewrite Hd. simpl. by rewrite <- app_assoc.
Qed.

Lemma chunks_length ticks :
  forallb read_ok ticks = true → length (chunks ticks) = length ticks.
Proof.
  induction ticks as [|t ticks IH]; [done|]. simpl.
  intros [Hr Hrest]%andb_prop. unfold chunks, read_ok in *. simpl.
  destruct (tk_read t); [done|]. simpl. by rewrite IH.
Qed.

(** A turn with a stop or quit key, or past the limit, ends the loop with
    the frames read so far; the keys are tested first. *)
Lemma read_loop_end max_duration start tk post frames s :
  recording s = true → _stop_recording s = false → _quit_flag s = false →
  key_seen tk || over_time max_duration start tk = true →
  read_loop max_duration start (tk :: post) frames s =
  Some (Ok frames, set_recording false (deliver (tk_keys tk) s)).
Proof.
  intros Hrec Hstop Hquit Hend. simpl.
  rewrite deliver_recording, Hrec, deliver_stop, deliver_quit, Hstop, Hquit. simpl.
  unfold key_seen, over_time in Hend.
  destruct (existsb is_stop _ || existsb is_quit _); [done|].
  simpl in Hend. by rewrite Hend.
Qed.

(** A failing read leaves the loop with the exception of the device. *)
Lemma read_loop_fault max_duration start tk post frames s f :
  recording s = true → _stop_recording s = false → _quit_flag s = false →
  key_seen tk = false → over_time max_duration start tk = false →
  tk_read tk = inl f →
  read_loop max_duration start (tk :: post) frames s =
  Some (Raise (exn_of_fault f), s).
Proof.
  intros Hrec Hstop Hquit Hkey Ht Hr. simpl.
  apply orb_false_elim in Hkey as [Hs Hq].
  rewrite (deliver_no_key _ _ Hs Hq), Hrec, Hstop, Hquit. simpl.
  unfold over_time in Ht. by rewrite Ht, Hr.
Qed.

(** When no read fails, a loop that ends has run through idle turns up to a
    turn with a stop or quit key or past the limit. *)
Lemma read_loop_decompose max_duration start ticks frames s r s' :
  recording s = true → _stop_recording s = false → _quit_flag s = false →
  forallb read_ok ticks = true →
  read_loop max_duration start ticks frames s = Some (r, s') →
  ∃ pre tk post,
    ticks = pre ++ tk :: post ∧
    forallb (idle_tick max_duration start) pre = true ∧
    key_seen tk || over_time max_duration start tk = true.
Proof.
  intros Hrec Hstop Hquit. revert frames.
  induction ticks as [|tk ticks IH]; intros frames Hreads Hrun; [done|].
  simpl in Hreads. apply andb_prop in Hreads as [Hread Hreads].
  destruct (key_seen tk || over_time max_duration start tk) eqn:Hend.
  - by exists [], tk, ticks.
  - assert (idle_tick max_duration start tk = true) as Hidle.
    { unfold idle_tick. apply orb_false_elim in Hend as [-> ->]. by rewrite Hread. }
    change (tk :: ticks) with ([tk] ++ ticks) in Hrun.
    rewrite read_loop_idle in Hrun by (simpl; by rewrite ?Hidle).
    destruct (IH _ Hreads Hrun) as (pre & tk' & post & -> & Hpre & Hend').
    exists (tk :: pre), tk', post. simpl. by rewrite Hidle.
Qed.

(** ** listen_for_audio *)

(** Whatever the script, a capture that ends consumes its script, leaves the
    transcript and the files alone, and logs the events of one capture; the
    stream is stopped and closed exactly when no read failed. *)
Lemma listen_for_audio_frame max_duration s r s' :
  listen_for_audio max_duration s = Some (r, s') →
  ∃ cs rest, captures s = cs :: rest ∧ captures s' = rest ∧
    transcript s' = transcript s ∧ dirs s' = dirs s ∧ files s' = files s ∧
    key_waits s' = key_waits s ∧ stt_calls s' = stt_calls s ∧
    trace s' = trace s ++ capture_events (released_on r).
Proof.
  unfold listen_for_audio. destruct (captures s) as [|cs rest] eqn:Hc; [done|].
  fold (capture_start rest s).
  destruct (read_loop _ _ _ _ _) as [[[frames|e] s1]|] eqn:Hloop; [| |done].
  - pose proof (read_loop_frame _ _ _ _ _ _ _ Hloop) as (Ht & Htr & Hd & Hf & Hk & Hcap & Hn).
    pose proof (deliver_frame (cs_late cs) s1) as (Ht' & Htr' & Hd' & Hf' & Hk' & Hcap' & Hn').
    intros H. exists cs, rest. split; [done|].
    assert (∀ r0 : result bytes, released_on r0 = true → Some (r0,
      emit [EvStreamStop; EvStreamClose] (emit [EvWatcherStop] (deliver (cs_late cs) s1)))
      = Some (r, s') →
      captures s' = rest ∧ transcript s' = transcript s ∧ dirs s' = dirs s ∧
      files s' = files s ∧ key_waits s' = key_waits s ∧ stt_calls s' = stt_calls s ∧
      trace s' = trace s ++ capture_events (released_on r)) as Hgo.
    { intros r0 Hrel [= <- <-]. rewrite Hrel. simpl.
      rewrite Ht', Ht, Hd', Hd, Hf', Hf, Hk', Hk, Hn', Hn, Hcap', Hcap, Htr', Htr. simpl.
      repeat split; try done. by rewrite <- !app_assoc. }
    destruct (_quit_flag _); eapply Hgo; try exact H; done.
  - pose proof (read_loop_frame _ _ _ _ _ _ _ Hloop) as (Ht & Htr & Hd & Hf & Hk & Hcap & Hn).
    pose proof (deliver_frame (cs_late cs) s1) as (Ht' & Htr' & Hd' & Hf' & Hk' & Hcap' & Hn').
    apply read_loop_raise in Hloop as [f ->].
    intros [= <- <-]. exists cs, rest. split; [done|].
    assert (released_on (Raise (exn_of_fault f)) = false) as -> by (by destruct f).
    simpl. rewrite Ht', Ht, Hd', Hd, Hf', Hf, Hk', Hk, Hn', Hn, Hcap', Hcap, Htr', Htr. simpl.
    repeat split; try done. by rewrite <- !app_assoc.
Qed.

(** A capture whose turns are idle up to a turn with a stop or quit key, or
    past the limit: cancellation if a quit key was handled before the
    watcher stopped, the audio read over the idle turns otherwise. *)
Lemma listen_for_audio_run max_duration s cs rest pre tk post :
  captures s = cs :: rest →
  cs_ticks cs = pre ++ tk :: post →
  forallb (idle_tick max_duration (cs_start cs)) pre = true →
  key_seen tk || over_time max_duration (cs_start cs) tk = true →
  ∃ s', listen_for_audio max_duration s =
          Some (if existsb is_quit (tk_keys tk ++ cs_late cs)
                then Raise KeyboardInterrupt
                else Ok (concat (chunks pre)), s').
Proof.
  intros Hc Hticks Hidle Hend. unfold listen_for_audio. rewrite Hc.
  fold (capture_start rest s). rewrite Hticks.
  rewrite read_loop_idle by done.
  rewrite read_loop_end by done. simpl.
  rewrite deliver_quit. simpl. rewrite deliver_quit. simpl.
  rewrite existsb_app_quit.
  destruct (existsb is_quit (tk_keys tk) || existsb is_quit (cs_late cs)); eauto.
Qed.

(** A capture whose first non-idle turn is a failing read. *)
Lemma listen_for_audio_fault max_duration s cs rest pre tk post f :
  captures s = cs :: rest →
  cs_ticks cs = pre ++ tk :: post →
  forallb (idle_tick max_duration (cs_start cs)) pre = true →
  key_seen tk = false → over_time max_duration (cs_start cs) tk = false →
  tk_read tk = inl f →
  ∃ s', listen_for_audio max_duration s = Some (Raise (exn_of_fault f), s') ∧
        trace s' = trace s ++ capture_events false.
Proof.
  intros Hc Hticks Hidle Hkey Ht Hr.
  assert (∃ s', listen_for_audio max_duration s = Some (Raise (exn_of_fault f), s'))
    as [s' Hrun].
  { unfold listen_for_audio. rewrite Hc.
    fold (capture_start rest s). rewrite Hticks.
    rewrite read_loop_idle by done.
    rewrite (read_loop_fault _ _ _ _ _ _ f) by done. eauto. }
  exists s'. split; [done|].
  apply listen_for_audio_frame in Hrun as (? & ? & _ & _ & _ & _ & _ & _ & _ & ->).
  by destruct f.
Qed.

(** ** The per-question protocol *)

Lemma speech_to_text_eq cfg data s :
  ∃ t, speech_to_text cfg data s = Some (Ok t, after_stt cfg data s) ∧
       or_placeholder t = answer_for cfg (stt_calls s) data.
Proof.
  destruct data as [|b data]; [by exists None|].
  unfold speech_to_text, try_except, bind, call, after_stt, answer_for.
  destruct (recognizer cfg (stt_calls s) (b :: data)) as [f|text]; simpl.
  - exists None. by destruct f.
  - case_bool_decide as Ht; simpl.
    + by exists None.
    + exists (Some text). split; [done|]. simpl. by rewrite bool_decide_false.
Qed.

(** [_ask_question_and_record] in one step: the prompt decides between
    quitting, capturing and doing nothing; a capture that returns audio is
    followed by recognition and one append. *)
Lemma ask_eq cfg q qid s :
  _ask_question_and_record cfg q qid s =
  match key_waits s with
  | [] => None
  | ks :: rest =>
      let kp := join_listener ks no_key in
      if kp_q kp then Some (Ok (Some "quit"), prompted q rest s)
      else if kp_e kp then
        match listen_for_audio 30 (prompted q rest s) with
        | None => None
        | Some (Raise e, sc) => Some (Raise e, sc)
        | Some (Ok data, sc) => Some (Ok None, record_answer cfg q qid data sc)
        end
      else Some (Ok None, prompted q rest s)
  end.
Proof.
  unfold _ask_question_and_record, bind at 1, speak, act.
  unfold bind at 1, wait_for_key. simpl.
  destruct (key_waits s) as [|ks rest]; [done|].
  fold (prompted q rest s). fold no_key. simpl.
  destruct (kp_q _); [done|]. destruct (kp_e _); [|done].
  unfold bind at 1.
  destruct (listen_for_audio 30 _) as [[[data|e] sc]|]; [|done|done].
  destruct (speech_to_text_eq cfg data sc) as (t & Hstt & Ht).
  unfold record_answer. rewrite <- Ht.
  destruct data as [|b data].
  - simpl. by rewrite Ht.
  - by rewrite (bind_ok _ _ _ _ _ Hstt).
Qed.

Lemma after_stt_frame cfg data s :
  transcript (after_stt cfg data s) = transcript s ∧
  dirs (after_stt cfg data s) = dirs s ∧ files (after_stt cfg data s) = files s ∧
  key_waits (after_stt cfg data s) = key_waits s ∧
  captures (after_stt cfg data s) = captures s ∧
  ∃ evs, trace (after_stt cfg data s) = trace s ++ evs ∧
         forallb is_device evs = true.
Proof.
  unfold after_stt. destruct data as [|b data].
  { repeat split; try done. exists []. by rewrite app_nil_r. }
  destruct (recognizer _ _ _); simpl; repeat split; try done.
  - by eexists [_].
  - exists []. by rewrite app_nil_r.
Qed.

Lemma count_prompts_app evs1 evs2 :
  count_prompts (evs1 ++ evs2) = count_prompts evs1 + count_prompts evs2.
Proof. unfold count_prompts. by rewrite filter_app, length_app. Qed.

Lemma no_writes_app evs1 evs2 :
  no_writes (evs1 ++ evs2) = no_writes evs1 && no_writes evs2.
Proof. apply forallb_app. Qed.

Lemma device_events_silent evs :
  forallb is_device evs = true → count_prompts evs = 0 ∧ no_writes evs = true.
Proof.
  induction evs as [|e evs IH]; [done|]. simpl.
  intros [He Hevs]%andb_prop. destruct (IH Hevs) as [Hc Hw].
  unfold count_prompts in *. rewrite filter_cons.
  split; destruct e; try done; simpl in *; by rewrite ?Hw.
Qed.

Lemma capture_events_device b : forallb is_device (capture_events b) = true.
Proof. by destruct b. Qed.

(** One question: the question is spoken, the prompt shown, then only the
    audio device and the log are touched; at most one entry is appended,
    for this question, and none when the protocol ends in a quit. *)
Lemma ask_step cfg q qid s r s' :
  _ask_question_and_record cfg q qid s = Some (r, s') →
  ∃ dev added,
    trace s' = trace s ++ [EvSpeak q; EvPrompt] ++ dev ∧
    forallb is_device dev = true ∧
    transcript s' = transcript s ++ added ∧
    files s' = files s ∧ dirs s' = dirs s ∧
    (added = [] ∨ ∃ a, added = [Entry qid q a]) ∧
    (r ≠ Ok None → added = []).
Proof.
  rewrite ask_eq. destruct (key_waits s) as [|ks rest]; [done|]. simpl.
  assert (∀ r0, Some (r0, prompted q rest s) = Some (r, s') →
    ∃ dev added,
      trace s' = trace s ++ [EvSpeak q; EvPrompt] ++ dev ∧
      forallb is_device dev = true ∧
      transcript s' = transcript s ++ added ∧
      files s' = files s ∧ dirs s' = dirs s ∧
      (added = [] ∨ ∃ a, added = [Entry qid q a]) ∧
      (r ≠ Ok None → added = [])) as Hplain.
  { intros r0 [= <- <-]. exists [], []. simpl.
    rewrite <- app_assoc, app_nil_r. repeat split; auto. }
  destruct (kp_q _); [by apply Hplain|].
  destruct (kp_e _); [|by apply Hplain].
  destruct (listen_for_audio 30 _) as [[rc sc]|] eqn:Hcap; [|done].
  apply listen_for_audio_frame in Hcap
    as (cs & rest' & _ & _ & Ht & Hd & Hf & _ & _ & Htr).
  simpl in Ht, Hd, Hf, Htr.
  destruct rc as [data|e]; intros [= <- <-].
  - destruct (after_stt_frame cfg data sc) as (Ht' & Hd' & Hf' & _ & _ & evs & Htr' & Hdev).
    exists (capture_events true ++ evs), [Entry qid q (answer_for cfg (stt_calls sc) data)].
    unfold record_answer. simpl.
    rewrite Htr', Htr, Ht', Ht, Hd', Hd, Hf', Hf. simpl.
    rewrite <- !app_assoc. simpl.
    repeat split; eauto. by intros [].
  - exists (capture_events (released_on (Raise e))), [].
    rewrite Htr, Ht, Hd, Hf, app_nil_r, <- !app_assoc. simpl.
    repeat split; auto. by destruct e.
Qed.

Lemma progress_refl s : progress s s [].
Proof.
  exists [], []. rewrite !app_nil_r. by repeat split.
Qed.

Lemma progress_trans s1 s2 s3 p1 p2 :
  progress s1 s2 p1 → progress s2 s3 p2 → progress s1 s3 (p1 ++ p2).
Proof.
  intros (evs1 & add1 & Htr1 & Ht1 & Hf1 & Hd1 & Hc1 & Hw1 & Hs1)
         (evs2 & add2 & Htr2 & Ht2 & Hf2 & Hd2 & Hc2 & Hw2 & Hs2).
  exists (evs1 ++ evs2), (add1 ++ add2).
  rewrite Htr2, Htr1, Ht2, Ht1, Hf2, Hf1, Hd2, Hd1, !app_assoc.
  repeat split; try done.
  - rewrite count_prompts_app, length_app. lia.
  - rewrite no_writes_app, Hw1, Hw2. done.
  - rewrite map_app. by apply sublist_app.
Qed.

(** Speaking is progress without any question. *)
Lemma progress_speak text s : progress s (emit [EvSpeak text] s) [].
Proof.
  exists [EvSpeak text], []. rewrite app_nil_r. by repeat split.
Qed.

Lemma ask_or_quit_progress cfg q qid s r s' :
  ask_or_quit cfg q qid s = Some (r, s') → progress s s' [(qid, q)].
Proof.
  intros H.
  assert (∃ r0, _ask_question_and_record cfg q qid s = Some (r0, s')) as [r0 Hask].
  { apply bind_inv in H as [(a & s1 & Hask & Hk)|(e & Hask & _)]; [|eauto].
    case_bool_decide; inversion Hk; subst; eauto. }
  apply ask_step in Hask as (dev & added & Htr & Hdev & Ht & Hf & Hd & Hadd & _).
  destruct (device_events_silent _ Hdev) as [Hc Hw].
  exists ([EvSpeak q; EvPrompt] ++ dev), added.
  repeat split; try done.
  - rewrite count_prompts_app, Hc. done.
  - destruct Hadd as [->|[a ->]]; simpl.
    + apply sublist_nil_l.
    + done.
Qed.

(** A loop of questions presents a prefix of its list. *)
Lemma for_each_ask_progress cfg {A} (qf idf : A → string) (xs : list A) s r s' :
  for_each xs (λ x, ask_or_quit cfg (qf x) (idf x)) s = Some (r, s') →
  ∃ n : nat, (n ≤ length xs)%nat ∧
             progress s s' (take n (map (λ x, (idf x, qf x)) xs)).
Proof.
  revert s. induction xs as [|x xs IH]; intros s; simpl.
  - intros [= <- <-]. exists 0. split; [done|]. apply progress_refl.
  - intros H. apply bind_inv in H as [([] & s1 & Hx & Hrest)|(e & Hx & _)].
    + apply ask_or_quit_progress in Hx.
      destruct (IH _ Hrest) as (n & Hn & Hp).
      exists (S n). split; [lia|]. simpl.
      apply (progress_trans _ _ _ [_] _ Hx Hp).
    + apply ask_or_quit_progress in Hx.
      exists 1. split; [lia|]. simpl. by rewrite take_0.
Qed.

(** ** The phases and the finalize step *)

Lemma resume_body_eq cfg s :
  resume_body cfg s =
  match resume_outcome cfg with
  | inl f => Some (Raise (exn_of_fault f), s)
  | inr [] => speak no_questions_message s
  | inr qs => for_each qs (λ question, ask_or_quit cfg question "dynamic") s
  end.
Proof.
  unfold resume_body, resume_outcome, bind, call.
  destruct (extract_text_from_pdf cfg _) as [f|text]; simpl; [done|].
  destruct (generate_resume_questions cfg text) as [f|[|q qs]]; done.
Qed.

(** Without questions to ask, the resume phase speaks one announcement and
    returns normally. *)
Lemma resume_phase_skip cfg s :
  resume_questions_of cfg = [] →
  resume_phase cfg s = Some (Ok tt, emit [EvSpeak (skip_message cfg)] s).
Proof.
  unfold resume_questions_of, skip_message, resume_phase, try_except.
  rewrite resume_body_eq.
  destruct (resume_outcome cfg) as [[m|m]|[|q qs]]; done.
Qed.

Lemma resume_phase_progress cfg s r s' :
  resume_phase cfg s = Some (r, s') →
  ∃ n : nat, (n ≤ length (resume_questions_of cfg))%nat ∧
    progress s s' (take n (map dynamic_key (resume_questions_of cfg))).
Proof.
  destruct (resume_questions_of cfg) as [|q qs] eqn:Hqs.
  { rewrite resume_phase_skip by done. intros [= <- <-].
    exists 0. split; [done|]. apply progress_speak. }
  unfold resume_phase, try_except. rewrite resume_body_eq.
  unfold resume_questions_of in Hqs.
  destruct (resume_outcome cfg) as [f|qs']; [done|]. subst qs'.
  destruct (for_each _ _ s) as [[r1 s1]|] eqn:Hloop; [|done].
  apply (for_each_ask_progress cfg (λ q, q) (λ _, "dynamic")) in Hloop
    as (n & Hn & Hp).
  assert (∀ text, progress s (emit [EvSpeak text] s1)
            (take n (map dynamic_key (q :: qs)))) as Hspoken.
  { intros text. rewrite <- (app_nil_r (take _ _)).
    eapply progress_trans; [exact Hp|apply progress_speak]. }
  destruct r1 as [[]|[|m|m]]; intros [= <- <-]; eauto.
Qed.

Lemma interview_body_progress cfg s r s' :
  interview_body cfg s = Some (r, s') →
  ∃ n1 n2 : nat,
    (n1 ≤ length (questions cfg))%nat ∧
    (n2 ≤ length (resume_questions_of cfg))%nat ∧
    progress s s' (take n1 (map fixed_key (questions cfg)) ++
                   take n2 (map dynamic_key (resume_questions_of cfg))).
Proof.
  unfold interview_body. intros H.
  apply bind_inv in H as [([] & s1 & Hfix & Hrest)|(e & Hfix & _)].
  - apply (for_each_ask_progress cfg qi_question qi_id) in Hfix as (n1 & Hn1 & Hp1).
    apply bind_inv in Hrest as [([] & s2 & Hsp & Hres)|(e & Hsp & _)]; [|done].
    injection Hsp as <-.
    apply resume_phase_progress in Hres as (n2 & Hn2 & Hp2).
    exists n1, n2. repeat split; try done.
    eapply progress_trans; [exact Hp1|].
    apply (progress_trans _ _ _ [] _ (progress_speak _ _) Hp2).
  - apply (for_each_ask_progress cfg qi_question qi_id) in Hfix as (n1 & Hn1 & Hp1).
    exists n1, 0. repeat split; [done|lia|]. by rewrite take_0, app_nil_r.
Qed.

(** Making sure of the transcript directory changes the directories at
    most. *)
Lemma prepared_frame cfg s :
  transcript (prepared cfg s) = transcript s ∧ trace (prepared cfg s) = trace s ∧
  files (prepared cfg s) = files s ∧ key_waits (prepared cfg s) = key_waits s ∧
  captures (prepared cfg s) = captures s ∧
  (dirs (prepared cfg s) = dirs s ∨ dirs (prepared cfg s) = {[ transcript_dir ]} ∪ dirs s).
Proof.
  unfold prepared.
  destruct (path_exists transcript_dir s), (os_error cfg transcript_dir);
    simpl; auto 10.
Qed.

(** [save_transcript] in one step: the error of making the directory or
    of opening the file, or the file written. *)
Lemma save_transcript_eq cfg s :
  save_transcript cfg s =
  match save_failure cfg s with
  | Some e => Some (Raise e, prepared cfg s)
  | None => Some (Ok tt, saved cfg s)
  end.
Proof.
  unfold save_transcript, save_failure, saved, prepared, bind, act, ret,
    open_for_writing, make_directory.
  destruct (path_exists transcript_dir s); simpl.
  - destruct (os_error cfg (transcript_filename cfg)); [done|].
    by destruct (open_error _ _).
  - destruct (os_error cfg transcript_dir); [done|]. simpl.
    destruct (os_error cfg (transcript_filename cfg)); [done|].
    by destruct (open_error _ _).
Qed.

Lemma finalize_eq cfg s :
  finalize cfg s =
  match save_failure cfg s with
  | Some e => Some (Raise e, prepared cfg s)
  | None => Some (Ok tt, finalized cfg s)
  end.
Proof.
  unfold finalize, bind. rewrite save_transcript_eq.
  by destruct (save_failure cfg s).
Qed.

Lemma finalized_trace cfg s :
  trace (finalized cfg s) =
  trace s ++ [EvWrite (transcript_filename cfg) (Json.dump (transcript s));
              EvSpeak closing].
Proof.
  unfold finalized, saved. simpl. rewrite <- app_assoc.
  by destruct (prepared_frame cfg s) as (_ & -> & _).
Qed.

Lemma finalized_transcript cfg s : transcript (finalized cfg s) = transcript s.
Proof. unfold finalized, saved. simpl. by destruct (prepared_frame cfg s) as (-> & _). Qed.

Lemma finalized_file cfg s :
  files (finalized cfg s) !! transcript_filename cfg =
  Some (Json.dump (transcript s)).
Proof. unfold finalized, saved. simpl. apply lookup_insert_eq. Qed.

(** [start_interview] with both credentials: the introduction, the body of
    the outer [try], and the [finally] clause after it however it ended. *)
Lemma start_interview_eq cfg s :
  keys_present cfg = true →
  start_interview cfg s =
  match interview_body cfg (after_intro cfg s) with
  | None => None
  | Some (r, s1) => Some (session_end cfg r s1)
  end.
Proof.
  unfold keys_present, start_interview, session_end. intros ->%negb_true_iff.
  unfold bind at 1, speak, act. fold (after_intro cfg s).
  unfold try_finally, try_except.
  destruct (interview_body cfg _) as [[[[]|[|m|m]] s1]|]; try done;
    unfold ret; rewrite finalize_eq; by destruct (save_failure cfg s1).
Qed.

(** ** Paths *)

Lemma string_cons_app x (a b : string) : String x a +:+ b = String x (a +:+ b).
Proof. reflexivity. Qed.

Lemma string_app_assoc (a b c : string) : (a +:+ b) +:+ c = a +:+ (b +:+ c).
Proof.
  induction a as [|x a IH]; [done|]. by rewrite !string_cons_app, IH.
Qed.

Lemma lacks_app c (a b : string) : lacks c (a +:+ b) = lacks c a && lacks c b.
Proof.
  induction a as [|d a IH]; [done|].
  rewrite string_cons_app. simpl. by rewrite IH, andb_assoc.
Qed.

(** A number in decimal holds digits and a sign only. *)
Lemma lacks_pretty_N_go c x s :
  lacks c "-0123456789" = true → lacks c s = true →
  lacks c (pretty_N_go x s) = true.
Proof.
  intros Hc. revert s. induction (N.lt_wf_0 x) as [x _ IH]; intros s Hs.
  destruct (N.eq_0_gt_0_cases x) as [->|Hpos].
  - by rewrite pretty_N_go_0.
  - rewrite pretty_N_go_step by done. apply IH.
    + by apply N.div_lt.
    + simpl. rewrite Hs, andb_true_r.
      apply negb_true_iff, bool_decide_eq_false. intros <-.
      unfold pretty_N_char in Hc. repeat case_match; vm_compute in Hc; discriminate.
Qed.

Lemma lacks_pretty_Z c (z : Z) :
  lacks c "-0123456789" = true → lacks c (pretty z) = true.
Proof.
  intros Hc.
  assert (∀ p : positive, lacks c (pretty p) = true) as Hpos.
  { intros p. unfold pretty, pretty_positive, pretty, pretty_N.
    case_decide.
    - simpl in *. apply andb_prop in Hc as [_ Hc]. apply andb_prop in Hc as [-> _]. done.
    - by apply lacks_pretty_N_go. }
  destruct z as [|p|p].
  - simpl in *. apply andb_prop in Hc as [_ Hc]. apply andb_prop in Hc as [-> _]. done.
  - apply Hpos.
  - change (lacks c (pretty (Z.neg p)))
      with (negb (bool_decide ("-"%char = c)) && lacks c (pretty p)).
    rewrite Hpos, andb_true_r.
    simpl in Hc. by apply andb_prop in Hc as [-> _].
Qed.

Lemma transcript_filename_eq cfg :
  transcript_filename cfg =
  transcript_dir +:+ String "/"
    ("candidate_" +:+ pretty (candidate_id cfg) +:+ "_" +:+ interview_name cfg
     +:+ ".json").
Proof. reflexivity. Qed.

Lemma ancestors_from_lacks pre s :
  lacks "/" s = true → ancestors_from pre s = [].
Proof.
  revert pre. induction s as [|c s IH]; intros pre; [done|]. simpl.
  intros [Hc Hs]%andb_prop. apply negb_true_iff in Hc. rewrite Hc.
  by apply IH.
Qed.

Lemma ancestors_from_app pre a b :
  lacks "/" a = true →
  ancestors_from pre (a +:+ b) = ancestors_from (pre +:+ a) b.
Proof.
  revert pre. induction a as [|c a IH]; intros pre.
  - intros _. f_equal. clear. induction pre as [|x pre IH]; [done|].
    by rewrite string_cons_app, <- IH.
  - simpl. intros [Hc Ha]%andb_prop. apply negb_true_iff in Hc.
    rewrite Hc. simpl. rewrite IH by done. f_equal.
    by rewrite string_app_assoc.
Qed.

(** With an interview name free of separators the transcript directory is
    the only directory on the way to the transcript file. *)
Lemma ancestors_transcript cfg :
  lacks "/" (interview_name cfg) = true →
  ancestors (transcript_filename cfg) = [transcript_dir].
Proof.
  intros Hname. rewrite transcript_filename_eq. unfold ancestors.
  rewrite ancestors_from_app by done. simpl.
  rewrite ancestors_from_lacks; [done|].
  rewrite !lacks_app, lacks_pretty_Z, Hname by done. done.
Qed.

(** The transcript is saved as soon as the operating system refuses
    neither the directory nor the file, the interview name holds no
    separator, the transcript directory is not a regular file, and the
    path of the transcript is not a directory. *)
Lemma save_succeeds cfg s :
  os_error cfg transcript_dir = None →
  os_error cfg (transcript_filename cfg) = None →
  lacks "/" (interview_name cfg) = true →
  files s !! transcript_dir = None →
  transcript_filename cfg ∉ dirs s →
  save_failure cfg s = None.
Proof.
  intros Hosd Hosf Hname Hfile Hnodir.
  assert (transcript_dir ∈ dirs (prepared cfg s)) as Hdir.
  { unfold prepared, path_exists. rewrite Hfile, Hosd.
    rewrite (bool_decide_false (is_Some None)) by (by intros [? ?]).
    rewrite orb_false_r. case_bool_decide; [done|]. simpl.
    apply elem_of_union_l. by apply elem_of_singleton. }
  assert (transcript_filename cfg ∉ dirs (prepared cfg s)) as Hnodir'.
  { destruct (prepared_frame cfg s) as (_ & _ & _ & _ & _ & [-> | ->]); [done|].
    intros [Heq%elem_of_singleton|?]%elem_of_union; [|done].
    rewrite transcript_filename_eq in Heq. discriminate Heq. }
  unfold save_failure, open_error. rewrite Hosd, Hosf.
  rewrite ancestors_transcript by done. simpl.
  rewrite (bool_decide_true _ Hdir). simpl.
  rewrite (bool_decide_false _ Hnodir'). by destruct (path_exists _ _).
Qed.

(** ** Saving again *)

Lemma prepared_exists cfg s :
  (if path_exists transcript_dir s then None else os_error cfg transcript_dir) = None →
  path_exists transcript_dir (prepared cfg s) = true.
Proof.
  unfold prepared. destruct (path_exists transcript_dir s) eqn:Hex; [done|].
  intros ->. unfold path_exists. simpl. apply orb_true_iff. left.
  apply bool_decide_eq_true, elem_of_union_l. by apply elem_of_singleton.
Qed.

Lemma prepared_prepared cfg s : prepared cfg (prepared cfg s) = prepared cfg s.
Proof.
  destruct (path_exists transcript_dir s) eqn:Hex.
  - assert (prepared cfg s = s) as Hp by (unfold prepared; by rewrite Hex).
    by rewrite !Hp.
  - destruct (os_error cfg transcript_dir) as [e|] eqn:Hos.
    + assert (prepared cfg s = s) as Hp by (unfold prepared; by rewrite Hex, Hos).
      by rewrite !Hp.
    + assert (path_exists transcript_dir (prepared cfg s) = true) as Hp
        by (apply prepared_exists; by rewrite Hex).
      unfold prepared at 1. by rewrite Hp.
Qed.

Lemma save_failure_prepared cfg s :
  save_failure cfg (prepared cfg s) = save_failure cfg s.
Proof.
  unfold save_failure. rewrite prepared_prepared.
  destruct (path_exists transcript_dir s) eqn:Hex.
  - assert (prepared cfg s = s) as Hp by (unfold prepared; by rewrite Hex).
    by rewrite !Hp, Hex.
  - destruct (os_error cfg transcript_dir) as [e|] eqn:Hos.
    + assert (prepared cfg s = s) as Hp by (unfold prepared; by rewrite Hex, Hos).
      by rewrite !Hp, Hex.
    + rewrite prepared_exists; [done|]. by rewrite Hex.
Qed.

Lemma path_exists_write p path content s :
  path_exists p s = true → path_exists p (write_file path content s) = true.
Proof.
  unfold path_exists. simpl. intros [H|H]%orb_true_iff; apply orb_true_iff.
  - by left.
  - right. apply bool_decide_eq_true. apply bool_decide_eq_true in H.
    destruct (decide (path = p)) as [->|Hne].
    + rewrite lookup_insert_eq. by eexists.
    + by rewrite lookup_insert_ne.
Qed.

Lemma open_error_dirs path s t :
  dirs t = dirs s → open_error path s = None → open_error path t = None.
Proof.
  unfold open_error. intros ->. destruct (find _ _); [|done].
  by case_bool_decide.
Qed.

(** A transcript file that can be opened lies in a directory. *)
Lemma open_error_none_dir cfg t :
  open_error (transcript_filename cfg) t = None → transcript_dir ∈ dirs t.
Proof.
  unfold open_error. rewrite transcript_filename_eq. unfold ancestors.
  rewrite ancestors_from_app by done.
  set (rest := "candidate_" +:+ _).
  change (ancestors_from ("" +:+ transcript_dir) (String "/" rest))
    with (transcript_dir :: ancestors_from (transcript_dir +:+ "/") rest).
  cbn [find]. destruct (decide (transcript_dir ∈ dirs t)) as [Hin|Hout]; [done|].
  rewrite (bool_decide_false _ Hout).
  rewrite (bool_decide_false (transcript_dir = "")) by done.
  cbn [negb andb]. by case_bool_decide.
Qed.

Lemma save_failure_none cfg s :
  save_failure cfg s = None →
  os_error cfg (transcript_filename cfg) = None ∧
  open_error (transcript_filename cfg) (prepared cfg s) = None ∧
  dirs (prepared cfg s) = {[ transcript_dir ]} ∪ dirs s.
Proof.
  unfold save_failure. intros Hok.
  destruct (if path_exists transcript_dir s then None
            else os_error cfg transcript_dir); [done|].
  destruct (os_error cfg (transcript_filename cfg)); [done|].
  split; [done|]. split; [done|].
  apply open_error_none_dir in Hok.
  destruct (prepared_frame cfg s) as (_ & _ & _ & _ & _ & [Hd | Hd]); [|done].
  rewrite Hd in *. symmetry. apply subseteq_union_1_L.
  by apply singleton_subseteq_l.
Qed.

(** What a save that went through leaves behind can be saved again. *)
Lemma saved_again cfg s :
  save_failure cfg s = None →
  prepared cfg (saved cfg s) = saved cfg s ∧ save_failure cfg (saved cfg s) = None.
Proof.
  unfold save_failure. intros Hok.
  destruct (if path_exists transcript_dir s then None
            else os_error cfg transcript_dir) eqn:Hfirst; [done|].
  destruct (os_error cfg (transcript_filename cfg)) eqn:Hos; [done|].
  assert (path_exists transcript_dir (saved cfg s) = true) as Hex.
  { unfold saved. apply path_exists_write. by apply prepared_exists. }
  assert (prepared cfg (saved cfg s) = saved cfg s) as Hp
    by (unfold prepared; by rewrite Hex).
  split; [done|]. rewrite Hex, Hp. by apply (open_error_dirs _ (prepared cfg s)).
Qed.

(** * The claims *)

(** ** C1: the prompt answered by neither key *)

(** C1, as the code has it: when [wait_for_key] returns with neither key
    recognised, [_ask_question_and_record] returns [None], not ["quit"]:
    the caller raises no abort and goes on with the next question.  No
    capture is started and nothing is appended to the transcript. *)
Theorem ask_without_key cfg q qid s ks rest :
  key_waits s = ks :: rest →
  join_listener ks no_key = no_key →
  _ask_question_and_record cfg q qid s = Some (Ok None, prompted q rest s) ∧
  ask_or_quit cfg q qid s = Some (Ok tt, prompted q rest s) ∧
  transcript (prompted q rest s) = transcript s ∧
  captures (prompted q rest s) = captures s ∧
  trace (prompted q rest s) = trace s ++ [EvSpeak q; EvPrompt].
Proof.
  intros Hw Hkp.
  assert (_ask_question_and_record cfg q qid s = Some (Ok None, prompted q rest s))
    as Hask.
  { rewrite ask_eq, Hw. simpl. by rewrite Hkp. }
  repeat split; try done.
  - unfold ask_or_quit. by rewrite (bind_ok _ _ _ _ _ Hask).
  - simpl. by rewrite <- app_assoc.
Qed.

Lemma ask_without_key_witness :
  let s := Sample.fresh [[SpecialKey "esc"]; [Sample.chr "e"]] [Sample.stop_capture] in
  _ask_question_and_record Sample.cfg "What is overfitting?" "q1" s =
    Some (Ok None, prompted "What is overfitting?" [[Sample.chr "e"]] s).
Proof.
  intros s.
  apply (ask_without_key Sample.cfg "What is overfitting?" "q1" s
           [SpecialKey "esc"] [[Sample.chr "e"]]); reflexivity.
Defined.

(** C1 as stated fails: the listener thread of the first prompt ends after
    handling only the Esc key, so [wait_for_key] returns with neither key
    recognised; the question does not end in ["quit"], and the
    session goes on to record an answer to the second question, where a
    quit at that prompt would have left the transcript empty. *)
Lemma ask_without_key_is_not_quit :
  let s := Sample.fresh [[SpecialKey "esc"]; [Sample.chr "e"]] [Sample.stop_capture] in
  let s_quit := Sample.fresh [[Sample.chr "q"]; [Sample.chr "e"]] [Sample.stop_capture] in
  join_listener [SpecialKey "esc"] no_key = no_key ∧
  fst <$> _ask_question_and_record Sample.cfg "What is overfitting?" "q1" s
    = Some (Ok None) ∧
  fst <$> _ask_question_and_record Sample.cfg "What is overfitting?" "q1" s_quit
    = Some (Ok (Some "quit")) ∧
  (transcript ∘ snd) <$> start_interview Sample.cfg s
    = Some [Entry "q2" "What is a tensor?" "a model that memorises noise"] ∧
  (transcript ∘ snd) <$> start_interview Sample.cfg s_quit = Some [].
Proof. repeat split; vm_compute; reflexivity. Qed.

(** ** C2: the finalize step *)

Lemma dump_items_occurs e es :
  e ∈ es → occurs_in (Json.dump_entry e) (Json.dump_items es).
Proof.
  induction es as [|e1 es IH]; intros He; [by apply elem_of_nil in He|].
  apply elem_of_cons in He as [->|He].
  - destruct es as [|e2 es].
    + exists "    ", Json.newline. reflexivity.
    + exists "    ", ("," +:+ Json.newline +:+ Json.dump_items (e2 :: es)).
      reflexivity.
  - destruct es as [|e2 es]; [by apply elem_of_nil in He|].
    destruct (IH He) as (pre & post & Heq).
    exists ("    " +:+ Json.dump_entry e1 +:+ "," +:+ Json.newline +:+ pre), post.
    change (Json.dump_items (e1 :: e2 :: es))
      with ("    " +:+ Json.dump_entry e1 +:+ "," +:+ Json.newline
            +:+ Json.dump_items (e2 :: es)).
    rewrite Heq. by rewrite !string_app_assoc.
Qed.

Lemma dump_occurs e es :
  e ∈ es → occurs_in (Json.dump_entry e) (Json.dump es).
Proof.
  intros He. destruct (dump_items_occurs e es He) as (pre & post & Heq).
  destruct es as [|e1 es]; [by apply elem_of_nil in He|].
  exists ("[" +:+ Json.newline +:+ pre), (post +:+ "]").
  change (Json.dump (e1 :: es))
    with ("[" +:+ Json.newline +:+ Json.dump_items (e1 :: es) +:+ "]").
  rewrite Heq. by rewrite !string_app_assoc.
Qed.

Lemma dump_empty es : Json.dump es = "[]" ↔ es = [].
Proof.
  split; [|by intros ->]. destruct es as [|e es]; [done|].
  intros H. discriminate H.
Qed.

(** C2, as the code has it: with both credentials present, however the
    body of the session ends (normally, by the quit signal, or by any
    other exception), [start_interview] ends too, after the [finally]
    clause, entered once and last; nothing before it writes a file.  When
    the transcript file can be opened the clause makes the only file write
    of the session, the dump of the transcript (the text [[]] exactly when
    there is no entry, every entry standing in it otherwise), and then
    speaks the closing statement; the result is that of the body, the
    quit signal absorbed.  When the transcript directory cannot be made
    or the file cannot be opened, the error leaves [save_transcript]
    inside the clause: nothing is written, the closing statement is not
    spoken, and the error is what [start_interview] raises.  The
    transcript is saved whenever the operating system refuses neither the
    directory nor the file, the interview name holds no separator, the
    transcript directory is not a regular file and the path of the
    transcript is not a directory. *)
Theorem finalize_runs_once cfg s r s1 :
  keys_present cfg = true →
  interview_body cfg (after_intro cfg s) = Some (r, s1) →
  ∃ evs,
    trace s1 = trace s ++ evs ∧ no_writes evs = true ∧
    files s1 = files s ∧
    start_interview cfg s = Some (session_end cfg r s1) ∧
    (save_failure cfg s1 = None →
       start_interview cfg s = Some (session_result r, finalized cfg s1) ∧
       trace (finalized cfg s1) =
         trace s ++ evs ++
         [EvWrite (transcript_filename cfg) (Json.dump (transcript s1));
          EvSpeak closing] ∧
       files (finalized cfg s1) =
         <[transcript_filename cfg := Json.dump (transcript s1)]> (files s)) ∧
    (∀ e, save_failure cfg s1 = Some e →
       start_interview cfg s = Some (Raise e, prepared cfg s1) ∧
       trace (prepared cfg s1) = trace s ++ evs ∧
       files (prepared cfg s1) = files s) ∧
    (os_error cfg transcript_dir = None →
     os_error cfg (transcript_filename cfg) = None →
     lacks "/" (interview_name cfg) = true →
     files s !! transcript_dir = None →
     transcript_filename cfg ∉ dirs s →
     save_failure cfg s1 = None) ∧
    (Json.dump (transcript s1) = "[]" ↔ transcript s1 = []) ∧
    (∀ e, e ∈ transcript s1 →
       occurs_in (Json.dump_entry e) (Json.dump (transcript s1))).
Proof.
  intros Hkeys Hbody.
  pose proof (interview_body_progress _ _ _ _ Hbody)
    as (n1 & n2 & _ & _ & evs & added & Htr & _ & Hfiles & Hdirs & _ & Hw & _).
  simpl in Htr, Hfiles, Hdirs. rewrite <- app_assoc in Htr.
  assert (start_interview cfg s = Some (session_end cfg r s1)) as Hrun
    by (by rewrite start_interview_eq, Hbody).
  destruct (prepared_frame cfg s1) as (_ & Hptr & Hpfiles & _).
  exists ([EvSpeak (intro cfg)] ++ evs).
  split; [done|]. split; [done|]. split; [done|]. split; [done|].
  split; [|split; [|split; [|split]]].
  - intros Hok. rewrite Hrun. unfold session_end. rewrite Hok.
    split; [done|]. split.
    + by rewrite finalized_trace, Htr, <- !app_assoc.
    + unfold finalized, saved. simpl. by rewrite Hpfiles, Hfiles.
  - intros e He. rewrite Hrun. unfold session_end. rewrite He.
    split; [done|]. split; [by rewrite Hptr|by rewrite Hpfiles].
  - intros Hosd Hosf Hname Hfile Hnodir. apply save_succeeds; [done|done|done| |].
    + by rewrite Hfiles.
    + by rewrite Hdirs.
  - apply dump_empty.
  - intros e. apply dump_occurs.
Qed.

(** An answer to the first question, then the quit key at the second
    prompt: the file holds the one entry. *)
Lemma finalize_runs_once_witness :
  let s := Sample.fresh [[Sample.chr "e"]; [Sample.chr "q"]] [Sample.stop_capture] in
  let s1 := Sample.state_after (interview_body Sample.cfg (after_intro Sample.cfg s)) in
  ∃ evs,
    start_interview Sample.cfg s = Some (Ok tt, finalized Sample.cfg s1) ∧
    no_writes evs = true ∧
    trace (finalized Sample.cfg s1) =
      evs ++ [EvWrite "interview_transcript/candidate_7_ml.json"
                (Json.dump (transcript s1));
              EvSpeak closing] ∧
    files (finalized Sample.cfg s1) !! "interview_transcript/candidate_7_ml.json" =
      Some (String.concat Json.newline
              ["[";
               "    {";
               "        " +:+ Sample.quoted "question_id" +:+ ": "
                 +:+ Sample.quoted "q1" +:+ ",";
               "        " +:+ Sample.quoted "question" +:+ ": "
                 +:+ Sample.quoted "What is overfitting?" +:+ ",";
               "        " +:+ Sample.quoted "answer" +:+ ": "
                 +:+ Sample.quoted "a model that memorises noise";
               "    }";
               "]"]).
Proof.
  intros s s1.
  assert (keys_present Sample.cfg = true) as Hkeys by reflexivity.
  assert (interview_body Sample.cfg (after_intro Sample.cfg s)
          = Some (Raise KeyboardInterrupt, s1)) as Hbody
    by (vm_compute; reflexivity).
  destruct (finalize_runs_once Sample.cfg s (Raise KeyboardInterrupt) s1 Hkeys Hbody)
    as (evs & _ & Hw & _ & _ & Hok & _ & Hopen & _).
  assert (save_failure Sample.cfg s1 = None) as Hsave.
  { apply Hopen; [reflexivity|reflexivity|reflexivity|reflexivity|].
    apply not_elem_of_empty. }
  destruct (Hok Hsave) as (Hrun & Htr & Hfiles).
  exists evs. split; [exact Hrun|]. split; [exact Hw|]. split; [exact Htr|].
  rewrite Hfiles, lookup_insert_eq. vm_compute. reflexivity.
Defined.

(** C2 as stated fails: an interview whose name holds a separator.  The
    candidate quits at the first prompt; the transcript directory is made,
    but the path of the transcript lies in a directory that does not
    exist, so opening it raises [FileNotFoundError] inside the [finally]
    clause.  The session ends with that error: no file is written and the
    closing statement is not spoken. *)
Lemma finalize_without_transcript :
  let s := Sample.fresh [[Sample.chr "q"]] [] in
  let path := "interview_transcript/candidate_7_a/b.json" in
  transcript_filename Sample.nested_cfg = path ∧
  keys_present Sample.nested_cfg = true ∧
  fst <$> interview_body Sample.nested_cfg (after_intro Sample.nested_cfg s)
    = Some (Raise KeyboardInterrupt) ∧
  fst <$> start_interview Sample.nested_cfg s = Some (Raise (FileNotFoundError path)) ∧
  (trace ∘ snd) <$> start_interview Sample.nested_cfg s
    = Some [EvSpeak (intro Sample.nested_cfg);
            EvSpeak "What is overfitting?"; EvPrompt] ∧
  (λ r, spoken closing (trace (snd r))) <$> start_interview Sample.nested_cfg s
    = Some false ∧
  (λ r, files (snd r) !! path) <$> start_interview Sample.nested_cfg s = Some None.
Proof. repeat split; vm_compute; reflexivity. Qed.

(** ** C3: the outcome of a capture *)

(** C3, as the code has it: a capture during which no read of the stream
    fails ends in exactly one of the three outcomes.  Such a capture ends
    at the first turn that shows a stop or quit key or is past the limit,
    the turns before it being idle; conversely a capture with such a turn
    after idle ones does end.  The outcome follows the priorities: a quit
    key handled while the watcher runs gives [QuitRequested], raised as
    [KeyboardInterrupt] and carrying no audio; otherwise (stop key, or
    else the limit) it is the audio read over the idle turns, [Captured],
    or [StoppedEmpty] when there is none. *)
Theorem capture_outcome_priority max_duration s cs rest :
  captures s = cs :: rest →
  let ends_with pre tk r :=
    if existsb is_quit (tk_keys tk ++ cs_late cs)
    then r = Raise KeyboardInterrupt ∧ outcome_of r = Some QuitRequested
    else r = Ok (concat (chunks pre)) ∧
         outcome_of r = Some (match concat (chunks pre) with
                              | [] => StoppedEmpty
                              | audio => Captured audio
                              end) in
  (∀ r s',
     forallb read_ok (cs_ticks cs) = true →
     listen_for_audio max_duration s = Some (r, s') →
     ∃ pre tk post,
       cs_ticks cs = pre ++ tk :: post ∧
       forallb (idle_tick max_duration (cs_start cs)) pre = true ∧
       key_seen tk || over_time max_duration (cs_start cs) tk = true ∧
       ends_with pre tk r) ∧
  (∀ pre tk post,
     cs_ticks cs = pre ++ tk :: post →
     forallb (idle_tick max_duration (cs_start cs)) pre = true →
     key_seen tk || over_time max_duration (cs_start cs) tk = true →
     ∃ r s', listen_for_audio max_duration s = Some (r, s') ∧ ends_with pre tk r).
Proof.
  intros Hc ends_with.
  assert (∀ pre tk post,
     cs_ticks cs = pre ++ tk :: post →
     forallb (idle_tick max_duration (cs_start cs)) pre = true →
     key_seen tk || over_time max_duration (cs_start cs) tk = true →
     ∃ r s', listen_for_audio max_duration s = Some (r, s') ∧ ends_with pre tk r)
    as Hends.
  { intros pre tk post Hticks Hidle Hend.
    destruct (listen_for_audio_run _ _ _ _ _ _ _ Hc Hticks Hidle Hend) as [s' Hrun].
    eexists _, s'. split; [exact Hrun|]. unfold ends_with.
    destruct (existsb is_quit _); [done|].
    split; [done|]. by destruct (concat (chunks pre)). }
  split; [|exact Hends].
  intros r s' Hreads Hrun.
  assert (∃ r1 s1, read_loop max_duration (cs_start cs) (cs_ticks cs) []
                     (capture_start rest s) = Some (r1, s1)) as (r1 & s1 & Hloop).
  { unfold listen_for_audio in Hrun. rewrite Hc in Hrun.
    fold (capture_start rest s) in Hrun.
    destruct (read_loop _ _ _ _ _) as [[r1 s1]|]; [eauto|done]. }
  apply read_loop_decompose in Hloop as (pre & tk & post & Hticks & Hidle & Hend);
    [|done..].
  destruct (Hends pre tk post Hticks Hidle Hend) as (r' & s'' & Hrun' & Hout).
  rewrite Hrun in Hrun'. injection Hrun' as <- <-.
  by exists pre, tk, post.
Qed.

(** Stop after one chunk: [Captured] with that chunk. *)
Lemma capture_outcome_priority_witness :
  ∃ r s', listen_for_audio 30 (Sample.fresh [] [Sample.stop_capture]) = Some (r, s') ∧
          r = Ok Sample.chunk ∧ outcome_of r = Some (Captured Sample.chunk).
Proof.
  destruct (capture_outcome_priority 30 (Sample.fresh [] [Sample.stop_capture])
              Sample.stop_capture [] eq_refl) as [_ Hprio].
  destruct (Hprio [Sample.idle (1001 # 10)]
              (Tick [Sample.chr "R"] (1005 # 10) (inr Sample.chunk)) []
              eq_refl eq_refl eq_refl) as (r & s' & Hrun & Hr & Ho).
  exists r, s'. split; [exact Hrun|]. split; [exact Hr|exact Ho].
Defined.

(** C3 as stated fails: when the first read of the stream raises, the
    capture ends with that exception, which is none of the three
    outcomes. *)
Lemma capture_read_error_is_no_outcome :
  fst <$> listen_for_audio 30 (Sample.fresh [] [Sample.broken_capture])
    = Some (Raise (OtherException "Unanticipated host error")) ∧
  outcome_of (Raise (OtherException "Unanticipated host error")) = None.
Proof. split; vm_compute; reflexivity. Qed.

(** ** C6: the time limit *)

(** C6, as the code has it: the test is [elapsed > max_duration].  In a
    capture during which no stop or quit key is handled, whose turns read
    a chunk each while the elapsed time is at most [max_duration], the call
    returns at the first turn whose elapsed time exceeds [max_duration],
    with the chunks read until then: [Captured], or [StoppedEmpty] when
    there is none.  One chunk was read per turn within the limit. *)
Theorem capture_time_limit max_duration s cs rest pre tk post :
  captures s = cs :: rest →
  cs_ticks cs = pre ++ tk :: post →
  forallb (λ t, negb (key_seen t)) (pre ++ [tk]) = true →
  existsb is_quit (cs_late cs) = false →
  forallb (λ t, negb (over_time max_duration (cs_start cs) t) && read_ok t) pre = true →
  over_time max_duration (cs_start cs) tk = true →
  ∃ s', listen_for_audio max_duration s = Some (Ok (concat (chunks pre)), s') ∧
        outcome_of (Ok (concat (chunks pre))) =
          Some (match concat (chunks pre) with
                | [] => StoppedEmpty
                | audio => Captured audio
                end) ∧
        length (chunks pre) = length pre.
Proof.
  intros Hc Hticks Hkeys Hlate Hpre Hover.
  rewrite forallb_app in Hkeys. apply andb_prop in Hkeys as [Hkpre Hktk].
  simpl in Hktk. rewrite andb_true_r in Hktk. apply negb_true_iff in Hktk.
  assert (forallb (idle_tick max_duration (cs_start cs)) pre = true) as Hidle.
  { clear Hticks. induction pre as [|t pre IH]; [done|]. simpl in *.
    apply andb_prop in Hkpre as [Hk1 Hk2]. apply andb_prop in Hpre as [Hp1 Hp2].
    rewrite IH by done. unfold idle_tick. rewrite Hk1. simpl.
    by rewrite Hp1. }
  assert (key_seen tk || over_time max_duration (cs_start cs) tk = true) as Hend.
  { by rewrite Hover, orb_true_r. }
  destruct (listen_for_audio_run _ _ _ _ _ _ _ Hc Hticks Hidle Hend) as [s' Hrun].
  rewrite existsb_app_quit in Hrun.
  unfold key_seen in Hktk. apply orb_false_elim in Hktk as [_ Hq].
  rewrite Hq, Hlate in Hrun. simpl in Hrun.
  exists s'. split; [exact Hrun|]. split.
  - by destruct (concat (chunks pre)).
  - apply chunks_length. clear -Hpre.
    induction pre as [|t pre IH]; [done|]. simpl in *.
    apply andb_prop in Hpre as [[_ Hr]%andb_prop Hp2]. by rewrite Hr, IH.
Qed.

(** No key: two chunks are read, the third poll is past 30 seconds. *)
Lemma capture_time_limit_witness :
  ∃ s', listen_for_audio 30 (Sample.fresh [] [Sample.timeout_capture]) =
          Some (Ok (Sample.chunk ++ Sample.chunk), s').
Proof.
  destruct (capture_time_limit 30 (Sample.fresh [] [Sample.timeout_capture])
              Sample.timeout_capture [] [Sample.idle 110; Sample.idle 125]
              (Sample.idle (1301 # 10)) [] eq_refl eq_refl eq_refl eq_refl eq_refl eq_refl)
    as (s' & Hrun & _).
  exists s'. exact Hrun.
Defined.

(** C6 as stated fails at the boundary: the clock reads exactly
    [start_time + max_duration] at the first poll, no key is pressed and
    nothing is buffered yet; the capture does not end there with an empty
    result but reads a chunk and ends at the next poll. *)
Lemma capture_at_exact_limit_goes_on :
  let cs := Sample.exact_limit_capture in
  Qle_bool 30 (130 - cs_start cs) = true ∧
  over_time 30 (cs_start cs) (Sample.idle 130) = false ∧
  fst <$> listen_for_audio 30 (Sample.fresh [] [cs]) = Some (Ok Sample.chunk) ∧
  outcome_of (Ok Sample.chunk) ≠ Some StoppedEmpty.
Proof. repeat split; try (vm_compute; reflexivity). discriminate. Qed.

(** ** C7: release of the stream and of the watcher *)

(** On every path on which no read fails, the quit path included, the
    watcher is stopped and the stream is stopped and closed, in this order,
    before the capture hands control back. *)
Lemma capture_releases_without_read_error max_duration s r s' :
  listen_for_audio max_duration s = Some (r, s') →
  (∀ f, r ≠ Raise (exn_of_fault f)) →
  trace s' = trace s ++ [EvStreamOpen; EvStreamStart; EvWatcherStart;
                         EvWatcherStop; EvStreamStop; EvStreamClose].
Proof.
  intros Hrun Hnofault.
  apply listen_for_audio_frame in Hrun as (_ & _ & _ & _ & _ & _ & _ & _ & _ & ->).
  destruct r as [audio|[|m|m]]; try done.
  - destruct (Hnofault (NotFound m)). done.
  - destruct (Hnofault (Failure m)). done.
Qed.

(** C7 fails on the code: when [stream.read] raises, the [with] block stops
    the watcher, but [stream.stop_stream()] and [stream.close()], which
    follow the block, are skipped: the capture ends with the stream open. *)
Theorem capture_read_error_leaves_stream_open :
  let s := Sample.fresh [] [Sample.broken_capture] in
  let left_behind := [EvStreamOpen; EvStreamStart; EvWatcherStart; EvWatcherStop] in
  fst <$> listen_for_audio 30 s
    = Some (Raise (OtherException "Unanticipated host error")) ∧
  (trace ∘ snd) <$> listen_for_audio 30 s = Some left_behind ∧
  EvWatcherStop ∈ left_behind ∧
  (EvStreamStop ∉ left_behind) ∧ (EvStreamClose ∉ left_behind).
Proof.
  destruct (listen_for_audio_fault 30 (Sample.fresh [] [Sample.broken_capture])
              Sample.broken_capture [] []
              (Tick [] (1001 # 10) (inl (Failure "Unanticipated host error"))) []
              (Failure "Unanticipated host error") eq_refl eq_refl eq_refl eq_refl
              eq_refl eq_refl) as (s1 & Hrun & Htr).
  cbv zeta. rewrite Hrun. simpl. rewrite Htr.
  split; [done|]. split; [done|].
  split; [apply list_elem_of_In; simpl; tauto|].
  split; intros Hin%list_elem_of_In; simpl in Hin; intuition discriminate.
Qed.

(** ** C4: the transcript follows the questions *)

(** C4: once the candidate has pressed the advance key, a capture that
    returns (with audio or without) is followed by exactly one appended
    entry, for the question asked, and a capture that raises (the quit
    signal in particular) by none.  Over a whole session the transcript
    only grows at its end; the questions presented, one prompt each, are
    the first [n1] fixed questions followed by the first [n2] questions
    drawn from the resume; the new entries belong to some of them, in the
    order of presentation, so they are no more than the questions
    presented. *)
Theorem transcript_follows_questions cfg :
  (∀ q qid s ks rest rc sc,
     key_waits s = ks :: rest →
     kp_q (join_listener ks no_key) = false →
     kp_e (join_listener ks no_key) = true →
     listen_for_audio 30 (prompted q rest s) = Some (rc, sc) →
     ∃ s', _ask_question_and_record cfg q qid s =
             Some (match rc with Ok _ => Ok None | Raise e => Raise e end, s') ∧
           transcript s' =
             transcript s ++
             match rc with
             | Ok data => [Entry qid q (answer_for cfg (stt_calls sc) data)]
             | Raise _ => []
             end) ∧
  (∀ s r s',
     start_interview cfg s = Some (r, s') →
     ∃ (n1 n2 : nat) evs added,
       (n1 ≤ length (questions cfg))%nat ∧
       (n2 ≤ length (resume_questions_of cfg))%nat ∧
       trace s' = trace s ++ evs ∧ count_prompts evs = (n1 + n2)%nat ∧
       transcript s' = transcript s ++ added ∧
       map entry_key added `sublist_of`
         take n1 (map fixed_key (questions cfg)) ++
         take n2 (map dynamic_key (resume_questions_of cfg)) ∧
       (length added ≤ n1 + n2)%nat).
Proof.
  split.
  - intros q qid s ks rest rc sc Hw Hq He Hcap.
    rewrite ask_eq, Hw. simpl. rewrite Hq, He, Hcap.
    apply listen_for_audio_frame in Hcap as (_ & _ & _ & _ & Ht & _).
    simpl in Ht. destruct rc as [data|e]; eexists; (split; [done|]).
    + unfold record_answer. simpl.
      destruct (after_stt_frame cfg data sc) as (-> & _). by rewrite Ht.
    + by rewrite Ht, app_nil_r.
  - intros s r s' Hrun.
    destruct (keys_present cfg) eqn:Hkeys.
    + rewrite start_interview_eq in Hrun by done.
      destruct (interview_body cfg _) as [[r1 s1]|] eqn:Hbody; [|done].
      apply interview_body_progress in Hbody
        as (n1 & n2 & Hn1 & Hn2 & evs & added & Htr & Ht & _ & _ & Hc & _ & Hsub).
      simpl in Htr, Ht. rewrite <- app_assoc in Htr.
      rewrite length_app, !length_take, !length_map in Hc.
      assert (length added ≤ n1 + n2)%nat as Hlen.
      { apply sublist_length in Hsub.
        rewrite length_map, length_app, !length_take, !length_map in Hsub. lia. }
      unfold session_end in Hrun.
      destruct (save_failure cfg s1); injection Hrun as <- <-.
      * destruct (prepared_frame cfg s1) as (Hpt & Hptr & _).
        exists n1, n2, ([EvSpeak (intro cfg)] ++ evs), added.
        rewrite Hpt, Hptr, Htr, Ht. repeat split; try done.
        rewrite count_prompts_app, Hc. unfold count_prompts. simpl. lia.
      * eexists n1, n2, _, added.
        rewrite finalized_trace, finalized_transcript, Htr, Ht.
        rewrite <- !app_assoc. repeat split; try done.
        rewrite !count_prompts_app, Hc. unfold count_prompts. simpl. lia.
    + unfold keys_present in Hkeys. apply negb_false_iff in Hkeys.
      unfold start_interview in Hrun. rewrite Hkeys in Hrun.
      injection Hrun as <- <-.
      exists 0, 0, [], []. rewrite !app_nil_r, !take_0.
      repeat split; try done; lia.
Qed.

(** Scenario 5: the quit key during the capture of the second question. *)
Lemma transcript_follows_questions_witness :
  let s := Sample.fresh [[Sample.chr "e"]; [Sample.chr "E"]]
             [Sample.stop_capture; Sample.quit_capture] in
  (∃ s1, _ask_question_and_record Sample.cfg "What is overfitting?" "q1" s
         = Some (Ok None, s1) ∧
         transcript s1 =
           [Entry "q1" "What is overfitting?" "a model that memorises noise"]) ∧
  ∃ (n1 n2 : nat) added,
    transcript (Sample.state_after (start_interview Sample.cfg s)) = added ∧
    (length added ≤ n1 + n2)%nat.
Proof.
  intros s. destruct (transcript_follows_questions Sample.cfg) as [Hask Hsession].
  split.
  - assert (listen_for_audio 30 (prompted "What is overfitting?" [[Sample.chr "E"]] s)
            = Some (Ok Sample.chunk,
                    Sample.state_after
                      (listen_for_audio 30
                         (prompted "What is overfitting?" [[Sample.chr "E"]] s))))
      as Hcap by (vm_compute; reflexivity).
    destruct (Hask "What is overfitting?" "q1" s [Sample.chr "e"] [[Sample.chr "E"]]
                _ _ eq_refl eq_refl eq_refl Hcap) as (s1 & Hrun & Htr).
    exists s1. split; [exact Hrun|]. rewrite Htr. vm_compute. reflexivity.
  - assert (start_interview Sample.cfg s
            = Some (Ok tt, Sample.state_after (start_interview Sample.cfg s)))
      as Hrun by (vm_compute; reflexivity).
    destruct (Hsession s _ _ Hrun)
      as (n1 & n2 & evs & added & _ & _ & _ & _ & Ht & _ & Hlen).
    exists n1, n2, added. split; [exact Ht|exact Hlen].
Defined.

(** ** C5: the recorded answer *)

(** C5: when the candidate advances and the capture returns [data], the
    question ends normally with one entry appended, whose answer is the
    text of the recogniser when the audio is not empty and the text is not
    empty, and the placeholder otherwise: for empty audio (the recogniser
    is not called), for an empty text, and for a failure of the backend,
    which is logged and does not end the session. *)
Theorem recorded_answer cfg q qid s ks rest data sc :
  key_waits s = ks :: rest →
  kp_q (join_listener ks no_key) = false →
  kp_e (join_listener ks no_key) = true →
  listen_for_audio 30 (prompted q rest s) = Some (Ok data, sc) →
  ∃ s' a,
    _ask_question_and_record cfg q qid s = Some (Ok None, s') ∧
    ask_or_quit cfg q qid s = Some (Ok tt, s') ∧
    transcript s' = transcript s ++ [Entry qid q a] ∧
    (data = [] → a = "No answer recorded." ∧ trace s' = trace sc) ∧
    (data ≠ [] →
     match recognizer cfg (stt_calls sc) data with
     | inr text =>
         (text ≠ "" → a = text) ∧ (text = "" → a = "No answer recorded.") ∧
         trace s' = trace sc
     | inl f =>
         a = "No answer recorded." ∧
         trace s' = trace sc ++
                    [EvLogError ("Speech-to-text error: " +:+ fault_message f)]
     end).
Proof.
  intros Hw Hq He Hcap.
  assert (_ask_question_and_record cfg q qid s =
          Some (Ok None, record_answer cfg q qid data sc)) as Hask.
  { rewrite ask_eq, Hw. simpl. by rewrite Hq, He, Hcap. }
  exists (record_answer cfg q qid data sc), (answer_for cfg (stt_calls sc) data).
  split; [done|]. split.
  { unfold ask_or_quit. by rewrite (bind_ok _ _ _ _ _ Hask). }
  split.
  { apply listen_for_audio_frame in Hcap as (_ & _ & _ & _ & Ht & _).
    simpl in Ht. unfold record_answer. simpl.
    destruct (after_stt_frame cfg data sc) as (-> & _). by rewrite Ht. }
  unfold record_answer, answer_for, after_stt. simpl. split.
  - by intros ->.
  - intros Hdata. destruct data as [|b data]; [done|].
    destruct (recognizer cfg _ _) as [f|text]; [done|].
    case_bool_decide; done.
Qed.

(** Scenario 4: the recogniser's text is recorded verbatim. *)
Lemma recorded_answer_witness :
  let s := Sample.fresh [[Sample.chr "e"]] [Sample.stop_capture] in
  ∃ s' a, _ask_question_and_record Sample.cfg "What is overfitting?" "q1" s
          = Some (Ok None, s') ∧
          transcript s' = [Entry "q1" "What is overfitting?" a] ∧
          a = "a model that memorises noise".
Proof.
  intros s.
  assert (listen_for_audio 30 (prompted "What is overfitting?" [] s)
          = Some (Ok Sample.chunk,
                  Sample.state_after
                    (listen_for_audio 30 (prompted "What is overfitting?" [] s))))
    as Hcap by (vm_compute; reflexivity).
  destruct (recorded_answer Sample.cfg "What is overfitting?" "q1" s
              [Sample.chr "e"] [] _ _ eq_refl eq_refl eq_refl Hcap)
    as (s' & a & Hrun & _ & Ht & _ & Htext).
  exists s', a. split; [exact Hrun|]. split; [exact Ht|].
  apply Htext; discriminate.
Defined.

(** ** C8: the resume phase asks nothing *)

(** C8: once the fixed questions are through, a resume that cannot be
    found, any other failure of extraction or of question generation, and
    an empty list of questions are all recoverable.  The resume phase
    speaks the matching announcement and returns normally; the session
    goes on to the finalize step with a body that ended normally, so it
    ends normally once the transcript is saved, and the transcript saved
    is the one the fixed phase left. *)
Theorem resume_phase_recovers cfg s s1 :
  keys_present cfg = true →
  fixed_phase cfg (after_intro cfg s) = Some (Ok tt, s1) →
  (∃ f, resume_outcome cfg = inl f) ∨ resume_outcome cfg = inr [] →
  let announcement :=
    match resume_outcome cfg with
    | inl (NotFound _) =>
        "I couldn't find a resume for you, so we'll skip the resume-based questions."
    | inl (Failure _) =>
        "I ran into an issue processing your resume, so we'll skip that part."
    | inr _ =>
        "I couldn't generate any questions from your resume, but we'll proceed."
    end in
  let s2 := emit [EvSpeak announcement] (emit [EvSpeak resume_announcement] s1) in
  resume_phase cfg (emit [EvSpeak resume_announcement] s1) = Some (Ok tt, s2) ∧
  interview_body cfg (after_intro cfg s) = Some (Ok tt, s2) ∧
  start_interview cfg s = Some (session_end cfg (Ok tt) s2) ∧
  (save_failure cfg s2 = None →
   start_interview cfg s = Some (Ok tt, finalized cfg s2)) ∧
  transcript (finalized cfg s2) = transcript s1 ∧
  trace (finalized cfg s2) =
    trace s1 ++
    [EvSpeak resume_announcement; EvSpeak announcement;
     EvWrite (transcript_filename cfg) (Json.dump (transcript s1));
     EvSpeak closing].
Proof.
  intros Hkeys Hfix Hout announcement s2.
  assert (resume_questions_of cfg = []) as Hnone.
  { unfold resume_questions_of. by destruct Hout as [[f ->]| ->]. }
  assert (announcement = skip_message cfg) as Hmsg by done.
  assert (resume_phase cfg (emit [EvSpeak resume_announcement] s1) = Some (Ok tt, s2))
    as Hres.
  { rewrite resume_phase_skip by done. unfold s2. by rewrite Hmsg. }
  assert (interview_body cfg (after_intro cfg s) = Some (Ok tt, s2)) as Hbody.
  { unfold interview_body.
    rewrite (bind_ok _ _ _ _ _ Hfix). unfold bind at 1, speak, act.
    by rewrite Hres. }
  assert (start_interview cfg s = Some (session_end cfg (Ok tt) s2)) as Hrun
    by (by rewrite start_interview_eq, Hbody).
  split; [done|]. split; [done|]. split; [done|]. split; [|split].
  - intros Hok. rewrite Hrun. unfold session_end. by rewrite Hok.
  - by rewrite finalized_transcript.
  - rewrite finalized_trace. unfold s2. simpl. by rewrite <- !app_assoc.
Qed.

(** Scenario 3: both fixed questions answered, no resume on file. *)
Lemma resume_phase_recovers_witness :
  let s := Sample.fresh [[Sample.chr "e"]; [Sample.chr "e"]]
             [Sample.stop_capture; Sample.empty_capture] in
  let s1 := Sample.state_after (fixed_phase Sample.cfg (after_intro Sample.cfg s)) in
  ∃ s2,
    start_interview Sample.cfg s = Some (Ok tt, finalized Sample.cfg s2) ∧
    transcript (finalized Sample.cfg s2) = transcript s1 ∧
    transcript s1 =
      [Entry "q1" "What is overfitting?" "a model that memorises noise";
       Entry "q2" "What is a tensor?" "No answer recorded."].
Proof.
  intros s s1.
  assert (fixed_phase Sample.cfg (after_intro Sample.cfg s) = Some (Ok tt, s1))
    as Hfix by (vm_compute; reflexivity).
  destruct (resume_phase_recovers Sample.cfg s s1 eq_refl Hfix
              (or_introl (ex_intro _ (NotFound "resumes/r7.pdf") eq_refl)))
    as (_ & _ & _ & Hrun & Ht & _).
  eexists. split; [apply Hrun; vm_compute; reflexivity|]. split; [exact Ht|].
  vm_compute. reflexivity.
Defined.

(** ** C9: saving twice *)

(** C9: [save_transcript] always ends, and a second call in the state the
    first one left ends the same way without changing the files or the
    directories.  A call that returns leaves at the path made of the
    candidate id and the interview name exactly the dump of the
    transcript, so two interviewers with the same id, name and transcript
    whose saves return have written the same bytes to the same path.  A
    call that raises (the directory could not be made, the file could not
    be opened) has written nothing, and so does the call after it. *)
Theorem save_transcript_idempotent cfg cfg' s s' :
  candidate_id cfg = candidate_id cfg' →
  interview_name cfg = interview_name cfg' →
  transcript s = transcript s' →
  transcript_filename cfg = transcript_filename cfg' ∧
  (∃ r s1 s2,
     save_transcript cfg s = Some (r, s1) ∧
     save_transcript cfg s1 = Some (r, s2) ∧
     files s2 = files s1 ∧ dirs s2 = dirs s1 ∧
     (r = Ok tt ↔ save_failure cfg s = None) ∧
     (r = Ok tt →
      files s1 = <[transcript_filename cfg := Json.dump (transcript s)]> (files s)) ∧
     (r ≠ Ok tt → files s1 = files s)) ∧
  (∀ s1', save_transcript cfg' s' = Some (Ok tt, s1') →
     files s1' !! transcript_filename cfg = Some (Json.dump (transcript s))).
Proof.
  intros Hid Hname Ht.
  assert (transcript_filename cfg = transcript_filename cfg') as Hpath.
  { unfold transcript_filename. by rewrite Hid, Hname. }
  assert (∀ c t, files (saved c t) =
                 <[transcript_filename c := Json.dump (transcript t)]> (files t))
    as Hfiles.
  { intros c t. unfold saved. simpl. by destruct (prepared_frame c t) as (_ & _ & -> & _). }
  assert (∀ c t, transcript (saved c t) = transcript t) as Hkeep.
  { intros c t. unfold saved. simpl. by destruct (prepared_frame c t) as (-> & _). }
  split; [done|]. split.
  - destruct (save_failure cfg s) as [e|] eqn:Hf.
    + exists (Raise e), (prepared cfg s), (prepared cfg s).
      rewrite !save_transcript_eq, save_failure_prepared, Hf, prepared_prepared.
      repeat split; try done.
      by destruct (prepared_frame cfg s) as (_ & _ & -> & _).
    + destruct (saved_again cfg s Hf) as [Hp Hagain].
      exists (Ok tt), (saved cfg s), (saved cfg (saved cfg s)).
      rewrite !save_transcript_eq, Hf, Hagain.
      split; [done|]. split; [done|]. split; [|split; [|split; [|split]]].
      * rewrite (Hfiles cfg (saved cfg s)), Hkeep, Hfiles. apply insert_insert_eq.
      * unfold saved at 1. simpl. by rewrite Hp.
      * done.
      * intros _. apply Hfiles.
      * by intros [].
  - intros s1'. rewrite save_transcript_eq.
    destruct (save_failure cfg' s'); [done|]. intros [= <-].
    rewrite Hfiles, Hpath, Ht. apply lookup_insert_eq.
Qed.

Lemma save_transcript_idempotent_witness :
  let s := Sample.state_after
             (interview_body Sample.cfg
                (after_intro Sample.cfg
                   (Sample.fresh [[Sample.chr "e"]; [Sample.chr "q"]]
                      [Sample.stop_capture]))) in
  ∃ s1 s2,
    save_transcript Sample.cfg s = Some (Ok tt, s1) ∧
    save_transcript Sample.cfg s1 = Some (Ok tt, s2) ∧
    files s2 = files s1 ∧
    files s1 !! "interview_transcript/candidate_7_ml.json" =
      Some (Json.dump [Entry "q1" "What is overfitting?" "a model that memorises noise"]).
Proof.
  intros s.
  destruct (save_transcript_idempotent Sample.cfg Sample.resume_cfg s s
              eq_refl eq_refl eq_refl)
    as (_ & (r & s1 & s2 & Hone & Htwo & Hfiles & _ & Hiff & Hfile & _) & _).
  assert (save_failure Sample.cfg s = None) as Hok by (vm_compute; reflexivity).
  apply Hiff in Hok. subst r.
  assert (transcript s =
          [Entry "q1" "What is overfitting?" "a model that memorises noise"])
    as Ht by (vm_compute; reflexivity).
  exists s1, s2. split; [exact Hone|]. split; [exact Htwo|]. split; [exact Hfiles|].
  rewrite <- Ht, (Hfile eq_refl). apply lookup_insert_eq.
Defined.

(** ** C10: a quit during a resume question *)

(** C10: the resume produced questions, the ones in [pre] were gone
    through, and the next one, [q], ends in a quit: either the capture
    raises [KeyboardInterrupt], or the quit key answers the prompt.  The
    signal is not caught by the [except] clauses of the resume phase; it
    leaves the phase, ends the body of the session, and the session goes
    on to the finalize step, ending normally once the transcript is saved.
    Nothing is appended for [q], nothing is asked or announced after it:
    the events of [q] are followed by the file write and the closing
    statement. *)
Theorem quit_in_resume_phase cfg s s1 pre q post sq r sq' :
  keys_present cfg = true →
  fixed_phase cfg (after_intro cfg s) = Some (Ok tt, s1) →
  resume_outcome cfg = inr (pre ++ q :: post) →
  for_each pre (λ question, ask_or_quit cfg question "dynamic")
    (emit [EvSpeak resume_announcement] s1) = Some (Ok tt, sq) →
  _ask_question_and_record cfg q "dynamic" sq = Some (r, sq') →
  r = Raise KeyboardInterrupt ∨ r = Ok (Some "quit") →
  resume_phase cfg (emit [EvSpeak resume_announcement] s1)
    = Some (Raise KeyboardInterrupt, sq') ∧
  interview_body cfg (after_intro cfg s) = Some (Raise KeyboardInterrupt, sq') ∧
  start_interview cfg s = Some (session_end cfg (Raise KeyboardInterrupt) sq') ∧
  (save_failure cfg sq' = None →
   start_interview cfg s = Some (Ok tt, finalized cfg sq')) ∧
  transcript (finalized cfg sq') = transcript sq ∧
  ∃ dev, forallb is_device dev = true ∧
    trace (finalized cfg sq') =
      trace sq ++ [EvSpeak q; EvPrompt] ++ dev ++
      [EvWrite (transcript_filename cfg) (Json.dump (transcript sq)); EvSpeak closing].
Proof.
  intros Hkeys Hfix Hout Hpre Hask Hquit.
  assert (ask_or_quit cfg q "dynamic" sq = Some (Raise KeyboardInterrupt, sq')) as Hq.
  { unfold ask_or_quit. destruct Hquit as [-> | ->].
    - by rewrite (bind_raise _ _ _ _ _ Hask).
    - by rewrite (bind_ok _ _ _ _ _ Hask). }
  assert (resume_phase cfg (emit [EvSpeak resume_announcement] s1)
          = Some (Raise KeyboardInterrupt, sq')) as Hres.
  { unfold resume_phase, try_except. rewrite resume_body_eq, Hout.
    assert (for_each (pre ++ q :: post)
              (λ question, ask_or_quit cfg question "dynamic")
              (emit [EvSpeak resume_announcement] s1)
            = Some (Raise KeyboardInterrupt, sq')) as Hloop.
    { rewrite (for_each_app _ _ _ _ _ Hpre). simpl.
      by rewrite (bind_raise _ _ _ _ _ Hq). }
    destruct (pre ++ q :: post) as [|x xs] eqn:Hqs.
    - by destruct pre.
    - by rewrite Hloop. }
  apply ask_step in Hask as (dev & added & Htr & Hdev & Ht & _ & _ & _ & Hnone).
  rewrite Hnone, app_nil_r in Ht by (destruct Hquit as [-> | ->]; done).
  assert (interview_body cfg (after_intro cfg s)
          = Some (Raise KeyboardInterrupt, sq')) as Hbody.
  { unfold interview_body.
    rewrite (bind_ok _ _ _ _ _ Hfix). unfold bind at 1, speak, act.
    by rewrite Hres. }
  assert (start_interview cfg s
          = Some (session_end cfg (Raise KeyboardInterrupt) sq')) as Hrun
    by (by rewrite start_interview_eq, Hbody).
  split; [done|]. split; [done|]. split; [done|]. split; [|split].
  - intros Hok. rewrite Hrun. unfold session_end. by rewrite Hok.
  - by rewrite finalized_transcript.
  - exists dev. split; [done|].
    by rewrite finalized_trace, Htr, Ht, <- !app_assoc.
Qed.

(** The first resume question is answered, [q] is pressed while the second
    answer is being recorded. *)
Lemma quit_in_resume_phase_witness :
  let s := Sample.fresh
             [[Sample.chr "e"]; [Sample.chr "e"]; [Sample.chr "e"]; [Sample.chr "e"]]
             [Sample.stop_capture; Sample.stop_capture; Sample.stop_capture;
              Sample.quit_capture] in
  let s1 := Sample.state_after
              (fixed_phase Sample.resume_cfg (after_intro Sample.resume_cfg s)) in
  let sq := Sample.state_after
              (ask_or_quit Sample.resume_cfg "Tell me about your thesis." "dynamic"
                 (emit [EvSpeak resume_announcement] s1)) in
  let sq' := Sample.state_after
               (_ask_question_and_record Sample.resume_cfg "Why this role?" "dynamic" sq) in
  start_interview Sample.resume_cfg s = Some (Ok tt, finalized Sample.resume_cfg sq') ∧
  transcript (finalized Sample.resume_cfg sq') = transcript sq ∧
  map question (transcript sq) =
    ["What is overfitting?"; "What is a tensor?"; "Tell me about your thesis."].
Proof.
  intros s s1 sq sq'.
  assert (fixed_phase Sample.resume_cfg (after_intro Sample.resume_cfg s) = Some (Ok tt, s1))
    as Hfix by (vm_compute; reflexivity).
  assert (for_each ["Tell me about your thesis."]
            (λ question, ask_or_quit Sample.resume_cfg question "dynamic")
            (emit [EvSpeak resume_announcement] s1) = Some (Ok tt, sq))
    as Hpre by (vm_compute; reflexivity).
  assert (_ask_question_and_record Sample.resume_cfg "Why this role?" "dynamic" sq
          = Some (Raise KeyboardInterrupt, sq')) as Hask by (vm_compute; reflexivity).
  destruct (quit_in_resume_phase Sample.resume_cfg s s1 ["Tell me about your thesis."]
              "Why this role?" [] sq (Raise KeyboardInterrupt) sq'
              eq_refl Hfix eq_refl Hpre Hask (or_introl eq_refl))
    as (_ & _ & _ & Hrun & Ht & _).
  split; [apply Hrun; vm_compute; reflexivity|]. split; [exact Ht|].
  vm_compute. reflexivity.
Defined.

(** ** The scenarios of the specification, run on the model *)

(** Scenario 1: the quit key at the very first prompt.  The file holds the
    empty list and the closing statement is spoken last. *)
Example scenario_quit_at_first_prompt :
  let s := Sample.fresh [[Sample.chr "Q"]] [] in
  (λ p, (p.1, trace p.2, files p.2 !! "interview_transcript/candidate_7_ml.json"))
    <$> start_interview Sample.cfg s =
  Some (Ok tt,
        [EvSpeak (intro Sample.cfg); EvSpeak "What is overfitting?"; EvPrompt;
         EvWrite "interview_transcript/candidate_7_ml.json" "[]";
         EvSpeak closing],
        Some "[]").
Proof. vm_compute. reflexivity. Qed.

(** Scenario 2: advance, then stop at once, for each fixed question. *)
Example scenario_empty_answers :
  let s := Sample.fresh [[Sample.chr "e"]; [Sample.chr "e"]]
             [Sample.empty_capture; Sample.empty_capture] in
  (λ p, (p.1, transcript p.2)) <$> start_interview Sample.cfg s =
  Some (Ok tt,
        [Entry "q1" "What is overfitting?" "No answer recorded.";
         Entry "q2" "What is a tensor?" "No answer recorded."]).
Proof. vm_compute. reflexivity. Qed.

(** A recogniser that fails: the failure is logged, the placeholder is
    recorded, the session goes on. *)
Example scenario_recognizer_fails :
  let s := Sample.fresh [[Sample.chr "e"]; [Sample.chr "q"]] [Sample.stop_capture] in
  (λ p, (p.1, transcript p.2, filter is_device (trace p.2)))
    <$> start_interview Sample.deaf_cfg s =
  Some (Ok tt,
        [Entry "q1" "What is overfitting?" "No answer recorded."],
        [EvStreamOpen; EvStreamStart; EvWatcherStart; EvWatcherStop;
         EvStreamStop; EvStreamClose;
         EvLogError "Speech-to-text error: recognizer crashed"]).
Proof. vm_compute. reflexivity. Qed.

(** An exception nobody expects, in the fixed phase: the read of the stream
    fails during the second answer.  The finalize step runs, then the
    exception leaves [start_interview]. *)
Example scenario_read_error_in_fixed_phase :
  let s := Sample.fresh [[Sample.chr "e"]; [Sample.chr "e"]]
             [Sample.stop_capture; Sample.broken_capture] in
  (λ p, (p.1, map question (transcript p.2), filter is_write (trace p.2),
         last (trace p.2)))
    <$> start_interview Sample.cfg s =
  Some (Raise (OtherException "Unanticipated host error"),
        ["What is overfitting?"],
        [EvWrite "interview_transcript/candidate_7_ml.json"
           (Json.dump [Entry "q1" "What is overfitting?" "a model that memorises noise"])],
        Some (EvSpeak closing)).
Proof. vm_compute. reflexivity. Qed.

(** The layout of the saved file. *)
Example dump_two_entries :
  Json.dump [Entry "q1" "Why?" "Because."; Entry "dynamic" "And then?" "No answer recorded."] =
  String.concat Json.newline
    ["[";
     "    {";
     "        " +:+ Json.str "question_id" +:+ ": " +:+ Json.str "q1" +:+ ",";
     "        " +:+ Json.str "question" +:+ ": " +:+ Json.str "Why?" +:+ ",";
     "        " +:+ Json.str "answer" +:+ ": " +:+ Json.str "Because.";
     "    },";
     "    {";
     "        " +:+ Json.str "question_id" +:+ ": " +:+ Json.str "dynamic" +:+ ",";
     "        " +:+ Json.str "question" +:+ ": " +:+ Json.str "And then?" +:+ ",";
     "        " +:+ Json.str "answer" +:+ ": " +:+ Json.str "No answer recorded.";
     "    }";
     "]"].
Proof. vm_compute. reflexivity. Qed.

(** * Further properties of the code *)

(** ** Keys *)

Lemma lower_cases c :
  (lower c = "r"%char ↔ c = "r"%char ∨ c = "R"%char) ∧
  (lower c = "q"%char ↔ c = "q"%char ∨ c = "Q"%char) ∧
  (lower c = "e"%char ↔ c = "e"%char ∨ c = "E"%char).
Proof.
  destruct c as [[] [] [] [] [] [] [] []]; vm_compute;
    (split; [|split]); (split; [intros H; try discriminate H; auto
                               |intros [H|H]; try discriminate H; reflexivity]).
Qed.

(** X1: the keys of the protocol are read without regard to case and
    nothing else passes for them.  The stop key of a capture is [r] or [R],
    the quit key [q] or [Q], the advance key of the prompt [e] or [E]; keys
    without a character (special keys, dead keys) are none of them. *)
Theorem key_classes k :
  (is_stop k = true ↔ k = KeyCode (Some "r"%char) ∨ k = KeyCode (Some "R"%char)) ∧
  (is_quit k = true ↔ k = KeyCode (Some "q"%char) ∨ k = KeyCode (Some "Q"%char)) ∧
  (is_advance k = true ↔ k = KeyCode (Some "e"%char) ∨ k = KeyCode (Some "E"%char)).
Proof.
  unfold is_stop, is_quit, is_advance.
  destruct k as [[c|]|name]; simpl.
  - destruct (lower_cases c) as (Hr & Hq & He).
    split; [|split]; (split;
      [ case_bool_decide as Hc; [|done]; intros _;
        first [apply Hr in Hc | apply Hq in Hc | apply He in Hc];
        destruct Hc as [-> | ->]; auto
      | intros [[= ->]|[= ->]]; reflexivity ]).
  - repeat split; intros H; try done; by destruct H.
  - repeat split; intros H; try done; by destruct H.
Qed.

Lemma join_listener_deciding ks :
  join_listener ks no_key =
  match deciding_key ks with
  | Some k => if is_advance k then KeyPressed true false else KeyPressed false true
  | None => no_key
  end.
Proof.
  unfold deciding_key.
  induction ks as [|k ks IH]; [done|]. simpl.
  unfold on_press_wait. unfold is_advance at 1. unfold is_quit at 1.
  destruct (char_is k "e") as [[]|] eqn:He; simpl.
  - unfold is_advance. by rewrite He.
  - destruct (char_is k "q") as [[]|] eqn:Hq; simpl.
    + unfold is_advance. by rewrite He.
    + exact IH.
    + exact IH.
  - assert (char_is k "q" = None) as -> by (by destruct k as [[c|]|]).
    exact IH.
Qed.

(** X2: [wait_for_key] is decided by the first key that is an advance or a
    quit key: the keys before it are ignored, the keys after it are not
    looked at.  It reports that key alone, so never both at once, and it
    reports neither only when the listener ended without such a key. *)
Theorem wait_for_key_first_key s ks rest :
  key_waits s = ks :: rest →
  ∃ kp,
    wait_for_key s = Some (Ok kp, emit [EvPrompt] (set_key_waits rest s)) ∧
    kp = match deciding_key ks with
         | Some k => if is_advance k then KeyPressed true false
                     else KeyPressed false true
         | None => no_key
         end ∧
    kp_e kp && kp_q kp = false ∧
    (kp = no_key ↔ ∀ k, k ∈ ks → is_advance k = false ∧ is_quit k = false).
Proof.
  intros Hw. exists (join_listener ks no_key).
  split; [unfold wait_for_key; by rewrite Hw|].
  rewrite join_listener_deciding. split; [done|].
  unfold deciding_key.
  destruct (find _ ks) as [k|] eqn:Hfind.
  - apply find_some in Hfind as [Hin Hk].
    split; [by destruct (is_advance k)|]. split.
    + by destruct (is_advance k).
    + intros Hall. apply list_elem_of_In, Hall in Hin as [Ha Hq].
      by rewrite Ha, Hq in Hk.
  - split; [done|]. split; [|done]. intros _ k Hin%list_elem_of_In.
    by apply (find_none _ _ Hfind), orb_false_elim in Hin.
Qed.

Lemma wait_for_key_first_key_witness :
  ∃ kp, wait_for_key (Sample.fresh [[SpecialKey "shift"; Sample.chr "x";
                                     Sample.chr "Q"; Sample.chr "e"]] [])
        = Some (Ok kp, emit [EvPrompt]
                         (set_key_waits [] (Sample.fresh
                            [[SpecialKey "shift"; Sample.chr "x";
                              Sample.chr "Q"; Sample.chr "e"]] []))) ∧
        kp = KeyPressed false true.
Proof.
  destruct (wait_for_key_first_key
              (Sample.fresh [[SpecialKey "shift"; Sample.chr "x";
                              Sample.chr "Q"; Sample.chr "e"]] [])
              [SpecialKey "shift"; Sample.chr "x"; Sample.chr "Q"; Sample.chr "e"]
              [] eq_refl) as (kp & Hrun & Hkp & _).
  exists kp. split; [exact Hrun|exact Hkp].
Defined.

(** ** The flags of the audio handler *)

(** X3: a capture starts from fresh flags.  Whatever [recording],
    [_stop_recording] and [_quit_flag] were left at by an earlier capture,
    a stop or quit pressed then has no effect on this one: two states that
    differ in the flags only give the same capture, result and state. *)
Theorem listen_for_audio_ignores_stale_flags max_duration s1 s2 :
  same_but_flags s1 s2 →
  listen_for_audio max_duration s1 = listen_for_audio max_duration s2.
Proof.
  intros (Ht & Htr & Hd & Hf & Hk & Hc & Hn).
  unfold listen_for_audio. rewrite Hc.
  destruct (captures s1) as [|cs rest]; [done|].
  fold (capture_start rest s1). fold (capture_start rest s2).
  assert (capture_start rest s2 = capture_start rest s1) as ->; [|done].
  unfold capture_start, emit, set_quit_flag, set_stop_recording, set_recording,
    set_captures. simpl. by rewrite Ht, Htr, Hd, Hf, Hk, Hn.
Qed.

Lemma listen_for_audio_ignores_stale_flags_witness :
  listen_for_audio 30 (Sample.fresh [] [Sample.stop_capture]) =
  listen_for_audio 30
    (set_quit_flag true (set_stop_recording true (Sample.fresh [] [Sample.stop_capture]))).
Proof.
  apply listen_for_audio_ignores_stale_flags. repeat split.
Defined.

Lemma read_loop_recording max_duration start ticks frames s r s' :
  recording s = true →
  read_loop max_duration start ticks frames s = Some (r, s') →
  recording s' = match r with Ok _ => false | Raise _ => true end.
Proof.
  revert frames s. induction ticks as [|tk ticks IH]; intros frames s Hrec; simpl; [done|].
  rewrite deliver_recording, Hrec. simpl.
  destruct (_ || _); [by intros [= <- <-]|].
  destruct (negb (Qle_bool _ _)); [by intros [= <- <-]|].
  destruct (tk_read tk) as [f|data].
  - intros [= <- <-]. by rewrite deliver_recording.
  - apply IH. by rewrite deliver_recording.
Qed.

(** X4: the flags a capture leaves behind.  When it returns audio,
    [recording] and [_quit_flag] are both off; when it is cancelled,
    [recording] is off and [_quit_flag] is on; when a read of the stream
    fails, [recording] is still on although no capture is running. *)
Theorem listen_for_audio_flags_after max_duration s r s' :
  listen_for_audio max_duration s = Some (r, s') →
  match r with
  | Ok _ => recording s' = false ∧ _quit_flag s' = false
  | Raise KeyboardInterrupt => recording s' = false ∧ _quit_flag s' = true
  | Raise _ => recording s' = true
  end.
Proof.
  unfold listen_for_audio. destruct (captures s) as [|cs rest]; [done|].
  fold (capture_start rest s).
  destruct (read_loop _ _ _ _ _) as [[[frames|e] s1]|] eqn:Hloop; [| |done].
  - apply read_loop_recording in Hloop; [|done].
    destruct (_quit_flag _) eqn:Hq; intros [= <- <-]; simpl in *;
      by rewrite deliver_recording.
  - pose proof Hloop as [f ->]%read_loop_raise.
    apply read_loop_recording in Hloop; [|done].
    intros [= <- <-]. simpl. rewrite deliver_recording. by destruct f.
Qed.

Lemma listen_for_audio_flags_after_witness :
  recording (Sample.state_after
               (listen_for_audio 30 (Sample.fresh [] [Sample.broken_capture]))) = true.
Proof.
  apply (listen_for_audio_flags_after 30 (Sample.fresh [] [Sample.broken_capture])
           (Raise (OtherException "Unanticipated host error"))).
  vm_compute. reflexivity.
Defined.

(** ** speech_to_text *)

(** X5: [speech_to_text] never raises, whatever the recogniser does, and it
    never returns an empty text: the result is [None] or a non-empty
    string.  Empty audio is answered [None] without calling the recogniser
    and without any change of state; other audio costs exactly one call,
    and only a failure of the backend adds to the trace (its log line). *)
Theorem speech_to_text_total cfg data s :
  ∃ t s',
    speech_to_text cfg data s = Some (Ok t, s') ∧
    t ≠ Some "" ∧
    (data = [] → t = None ∧ s' = s) ∧
    (data ≠ [] → stt_calls s' = S (stt_calls s)) ∧
    transcript s' = transcript s ∧ files s' = files s ∧
    (trace s' = trace s ∨
     ∃ f, recognizer cfg (stt_calls s) data = inl f ∧ t = None ∧
          trace s' = trace s ++
                     [EvLogError ("Speech-to-text error: " +:+ fault_message f)]).
Proof.
  destruct data as [|b data].
  { exists None, s. repeat split; auto; done. }
  unfold speech_to_text, try_except, bind, call.
  destruct (recognizer cfg (stt_calls s) (b :: data)) as [f|text] eqn:Hrec; simpl.
  - eexists None, _. split; [by destruct f|].
    destruct f; simpl; repeat split; try done; right; eexists; eauto.
  - case_bool_decide as Ht; simpl.
    + eexists None, _. repeat split; try done. by left.
    + eexists (Some text), _. repeat split; try done.
      * intros [= ->]. done.
      * by left.
Qed.

(** ** save_transcript *)

(** X6: [save_transcript] always ends, and touches one file at most.
    Every other path keeps its content, the directories gain at most the
    transcript directory (nothing when something of that name is there
    already), the transcript in memory and the pending scripts are
    untouched.  When it returns, the trace has grown by the one write, the
    file holds the dump of the transcript and lies in the transcript
    directory; when it raises, no file has changed and nothing was
    written. *)
Theorem save_transcript_frame cfg s :
  ∃ r s',
    save_transcript cfg s = Some (r, s') ∧
    (∀ path, path ≠ transcript_filename cfg → files s' !! path = files s !! path) ∧
    (dirs s' = dirs s ∨ dirs s' = {[ transcript_dir ]} ∪ dirs s) ∧
    (path_exists transcript_dir s = true → dirs s' = dirs s) ∧
    transcript s' = transcript s ∧
    key_waits s' = key_waits s ∧ captures s' = captures s ∧
    match r with
    | Ok _ =>
        save_failure cfg s = None ∧
        trace s' = trace s ++
                   [EvWrite (transcript_filename cfg) (Json.dump (transcript s))] ∧
        files s' !! transcript_filename cfg = Some (Json.dump (transcript s)) ∧
        dirs s' = {[ transcript_dir ]} ∪ dirs s
    | Raise e =>
        save_failure cfg s = Some e ∧ trace s' = trace s ∧ files s' = files s
    end.
Proof.
  destruct (prepared_frame cfg s) as (Ht & Htr & Hfiles & Hk & Hc & Hd).
  assert (path_exists transcript_dir s = true → dirs (prepared cfg s) = dirs s)
    as Hthere by (intros Hex; unfold prepared; by rewrite Hex).
  rewrite save_transcript_eq. destruct (save_failure cfg s) as [e|] eqn:Hf.
  - exists (Raise e), (prepared cfg s).
    split; [done|]. split; [by rewrite Hfiles|]. done.
  - exists (Ok tt), (saved cfg s).
    destruct (save_failure_none cfg s Hf) as (_ & _ & Hdir).
    unfold saved. simpl. rewrite Ht, Htr, Hfiles, Hk, Hc.
    split; [done|]. split; [intros path Hne; by apply lookup_insert_ne|].
    do 6 (split; [done|]). split; [done|]. split; [apply lookup_insert_eq|done].
Qed.

(** ** start_interview without credentials *)

Lemma unset_true v : unset v = true ↔ v = None ∨ v = Some "".
Proof.
  destruct v as [t|]; simpl.
  - rewrite bool_decide_eq_true. split; [intros ->; auto|by intros [|[= ->]]].
  - split; auto.
Qed.

(** X7: when [GROQ_API_KEY] or [RIME_API_KEY] is unset or empty,
    [start_interview] returns at once and leaves everything as it was:
    nothing is spoken, no question is asked, no script is consumed, and,
    unlike on every other path, no transcript file is written. *)
Theorem start_interview_without_credentials cfg s :
  keys_present cfg = false →
  start_interview cfg s = Some (Ok tt, s) ∧
  (keys_present cfg = false ↔
   groq_api_key cfg = None ∨ groq_api_key cfg = Some "" ∨
   rime_api_key cfg = None ∨ rime_api_key cfg = Some "").
Proof.
  intros Hkeys. split.
  - unfold keys_present in Hkeys. apply negb_false_iff in Hkeys.
    unfold start_interview. by rewrite Hkeys.
  - clear Hkeys. unfold keys_present.
    rewrite negb_false_iff, orb_true_iff, !unset_true. tauto.
Qed.

Lemma start_interview_without_credentials_witness :
  let cfg := Config 7 "ml" Sample.fixed_questions (Some "gsk-key") (Some "")
               (λ _ _, inr "text") (λ _, inr "resume") (λ _, inr ["Why?"])
               (λ _, None) in
  start_interview cfg (Sample.fresh [[Sample.chr "e"]] [Sample.stop_capture]) =
  Some (Ok tt, Sample.fresh [[Sample.chr "e"]] [Sample.stop_capture]).
Proof.
  intros cfg.
  apply (start_interview_without_credentials cfg
           (Sample.fresh [[Sample.chr "e"]] [Sample.stop_capture])).
  reflexivity.
Defined.

(** ** What a question consumes *)

(** X8: every question that ends consumes exactly one prompt.  It touches
    the microphone only if the advance key was pressed and the quit key
    was not: then it consumes exactly one capture; otherwise the pending
    captures are left alone and the trace shows the question and the
    prompt only. *)
Theorem ask_consumes cfg q qid s r s' :
  _ask_question_and_record cfg q qid s = Some (r, s') →
  ∃ ks rest,
    key_waits s = ks :: rest ∧ key_waits s' = rest ∧
    let kp := join_listener ks no_key in
    if negb (kp_q kp) && kp_e kp
    then ∃ cs crest, captures s = cs :: crest ∧ captures s' = crest
    else captures s' = captures s ∧ trace s' = trace s ++ [EvSpeak q; EvPrompt] ∧
         transcript s' = transcript s.
Proof.
  rewrite ask_eq. destruct (key_waits s) as [|ks rest]; [done|]. simpl.
  intros H. exists ks, rest. split; [done|].
  assert (trace (prompted q rest s) = trace s ++ [EvSpeak q; EvPrompt]) as Htr.
  { simpl. by rewrite <- app_assoc. }
  destruct (kp_q _); simpl.
  { injection H as <- <-. done. }
  destruct (kp_e _); simpl.
  2: { injection H as <- <-. done. }
  destruct (listen_for_audio 30 _) as [[rc sc]|] eqn:Hcap; [|done].
  apply listen_for_audio_frame in Hcap
    as (cs & crest & Hc & Hc' & _ & _ & _ & Hk & _).
  simpl in Hc, Hk.
  destruct rc as [data|e]; injection H as <- <-.
  - destruct (after_stt_frame cfg data sc) as (_ & _ & _ & Hk' & Hc'' & _).
    unfold record_answer. simpl. rewrite Hk', Hc'', Hk. eauto.
  - rewrite Hk. eauto.
Qed.

Lemma ask_consumes_witness :
  let s := Sample.fresh [[Sample.chr "q"]; [Sample.chr "e"]] [Sample.stop_capture] in
  ∃ ks rest,
    key_waits s = ks :: rest ∧
    key_waits (Sample.state_after
                 (_ask_question_and_record Sample.cfg "What is overfitting?" "q1" s))
    = rest.
Proof.
  intros s.
  destruct (ask_consumes Sample.cfg "What is overfitting?" "q1" s (Ok (Some "quit"))
              (Sample.state_after
                 (_ask_question_and_record Sample.cfg "What is overfitting?" "q1" s)))
    as (ks & rest & Hw & Hw' & _).
  { vm_compute. reflexivity. }
  exists ks, rest. split; [exact Hw|exact Hw'].
Defined.

(** ** A phase gone through to its end *)

Lemma ask_or_quit_answered cfg q qid s ks rest s1 :
  key_waits s = ks :: rest →
  join_listener ks no_key ≠ no_key →
  ask_or_quit cfg q qid s = Some (Ok tt, s1) →
  key_waits s1 = rest ∧ ∃ a, transcript s1 = transcript s ++ [Entry qid q a].
Proof.
  intros Hw Hkey. unfold ask_or_quit, bind. rewrite ask_eq, Hw. simpl.
  destruct (join_listener ks no_key) as [[] []]; simpl; try done.
  destruct (listen_for_audio 30 _) as [[[data|e] sc]|] eqn:Hcap; [|done..].
  apply listen_for_audio_frame in Hcap as (_ & _ & _ & _ & Ht & _ & _ & Hk & _).
  simpl in Ht, Hk. intros [= <-].
  destruct (after_stt_frame cfg data sc) as (Ht' & _ & _ & Hk' & _).
  unfold record_answer. simpl. rewrite Hk', Hk, Ht', Ht. eauto.
Qed.

Lemma for_each_ask_complete cfg {A} (qf idf : A → string) (xs : list A) s s' :
  Forall (λ ks, join_listener ks no_key ≠ no_key) (key_waits s) →
  for_each xs (λ x, ask_or_quit cfg (qf x) (idf x)) s = Some (Ok tt, s') →
  ∃ added, transcript s' = transcript s ++ added ∧
           map entry_key added = map (λ x, (idf x, qf x)) xs ∧
           key_waits s' = drop (length xs) (key_waits s).
Proof.
  revert s. induction xs as [|x xs IH]; intros s Hkeys; simpl.
  - intros [= <-]. exists []. by rewrite app_nil_r, drop_0.
  - intros H. apply bind_inv in H as [([] & s1 & Hx & Hrest)|(e & _ & ?)]; [|done].
    destruct (key_waits s) as [|ks rest] eqn:Hw.
    { unfold ask_or_quit, bind in Hx. by rewrite ask_eq, Hw in Hx. }
    apply Forall_cons in Hkeys as [Hks Hrest_keys].
    destruct (ask_or_quit_answered _ _ _ _ _ _ _ Hw Hks Hx) as (Hw1 & a & Ht1).
    destruct (IH s1) as (added & Ht & Hmap & Hw'); [by rewrite Hw1|done|].
    exists (Entry (idf x) (qf x) a :: added).
    rewrite Ht, Ht1, <- app_assoc. simpl. rewrite Hmap, Hw', Hw1. done.
Qed.

(** X9: when the fixed phase goes through to its end and every prompt was
    answered by a key (the listener never ended on its own), the transcript
    has gained exactly one entry per fixed question, with the ids and the
    questions of the list, in its order, and one prompt per question has
    been consumed. *)
Theorem fixed_phase_complete cfg s s' :
  Forall (λ ks, join_listener ks no_key ≠ no_key) (key_waits s) →
  fixed_phase cfg s = Some (Ok tt, s') →
  ∃ added,
    transcript s' = transcript s ++ added ∧
    map entry_key added = map fixed_key (questions cfg) ∧
    length added = length (questions cfg) ∧
    key_waits s' = drop (length (questions cfg)) (key_waits s).
Proof.
  intros Hkeys Hrun.
  apply (for_each_ask_complete cfg qi_question qi_id) in Hrun
    as (added & Ht & Hmap & Hw); [|done].
  exists added. repeat split; try done.
  by rewrite <- (length_map entry_key), Hmap, length_map.
Qed.

Lemma fixed_phase_complete_witness :
  let s := Sample.fresh [[Sample.chr "e"]; [Sample.chr "E"]; [Sample.chr "q"]]
             [Sample.stop_capture; Sample.timeout_capture] in
  ∃ added,
    transcript (Sample.state_after (fixed_phase Sample.cfg s)) = added ∧
    map entry_key added =
      [("q1", "What is overfitting?"); ("q2", "What is a tensor?")].
Proof.
  intros s.
  destruct (fixed_phase_complete Sample.cfg s (Sample.state_after (fixed_phase Sample.cfg s)))
    as (added & Ht & Hmap & _).
  - repeat constructor; vm_compute; discriminate.
  - vm_compute. reflexivity.
  - exists added. split; [exact Ht|exact Hmap].
Defined.

(** ** A failing microphone *)

(** X10: where a failing read of the stream ends up depends on the phase.
    During a resume question it is caught by the [except] clauses of the
    resume phase as if the resume tooling had failed: the phase speaks the
    resume announcement matching the class of the exception and returns
    normally, the remaining questions are dropped, and the session goes
    on to the finalize step as after a body that ended normally.  During
    a fixed question nothing catches it: the finalize step runs and, the
    transcript once saved, the exception leaves [start_interview]. *)
Theorem read_failure_by_phase cfg f :
  let announcement :=
    match f with
    | NotFound _ =>
        "I couldn't find a resume for you, so we'll skip the resume-based questions."
    | Failure _ =>
        "I ran into an issue processing your resume, so we'll skip that part."
    end in
  (∀ s s1 pre q post sq sq',
     keys_present cfg = true →
     fixed_phase cfg (after_intro cfg s) = Some (Ok tt, s1) →
     resume_outcome cfg = inr (pre ++ q :: post) →
     for_each pre (λ question, ask_or_quit cfg question "dynamic")
       (emit [EvSpeak resume_announcement] s1) = Some (Ok tt, sq) →
     _ask_question_and_record cfg q "dynamic" sq = Some (Raise (exn_of_fault f), sq') →
     resume_phase cfg (emit [EvSpeak resume_announcement] s1)
       = Some (Ok tt, emit [EvSpeak announcement] sq') ∧
     start_interview cfg s
       = Some (session_end cfg (Ok tt) (emit [EvSpeak announcement] sq')) ∧
     (save_failure cfg (emit [EvSpeak announcement] sq') = None →
      start_interview cfg s
        = Some (Ok tt, finalized cfg (emit [EvSpeak announcement] sq'))) ∧
     transcript (finalized cfg (emit [EvSpeak announcement] sq')) = transcript sq) ∧
  (∀ s s1,
     keys_present cfg = true →
     fixed_phase cfg (after_intro cfg s) = Some (Raise (exn_of_fault f), s1) →
     start_interview cfg s = Some (session_end cfg (Raise (exn_of_fault f)) s1) ∧
     (save_failure cfg s1 = None →
      start_interview cfg s = Some (Raise (exn_of_fault f), finalized cfg s1))).
Proof.
  intros announcement. split.
  - intros s s1 pre q post sq sq' Hkeys Hfix Hout Hpre Hask.
    assert (ask_or_quit cfg q "dynamic" sq = Some (Raise (exn_of_fault f), sq')) as Hq.
    { unfold ask_or_quit. by rewrite (bind_raise _ _ _ _ _ Hask). }
    assert (resume_phase cfg (emit [EvSpeak resume_announcement] s1)
            = Some (Ok tt, emit [EvSpeak announcement] sq')) as Hres.
    { unfold resume_phase, try_except. rewrite resume_body_eq, Hout.
      assert (for_each (pre ++ q :: post)
                (λ question, ask_or_quit cfg question "dynamic")
                (emit [EvSpeak resume_announcement] s1)
              = Some (Raise (exn_of_fault f), sq')) as Hloop.
      { rewrite (for_each_app _ _ _ _ _ Hpre). simpl.
        by rewrite (bind_raise _ _ _ _ _ Hq). }
      destruct (pre ++ q :: post) as [|x xs] eqn:Hqs; [by destruct pre|].
      rewrite Hloop. by destruct f. }
    assert (start_interview cfg s
            = Some (session_end cfg (Ok tt) (emit [EvSpeak announcement] sq')))
      as Hrun.
    { rewrite start_interview_eq by done. unfold interview_body.
      rewrite (bind_ok _ _ _ _ _ Hfix). unfold bind at 1, speak, act.
      by rewrite Hres. }
    split; [done|]. split; [done|]. split.
    + intros Hok. rewrite Hrun. unfold session_end. by rewrite Hok.
    + rewrite finalized_transcript. simpl.
      apply ask_step in Hask as (_ & added & _ & _ & Ht & _ & _ & _ & Hnone).
      rewrite Hnone, app_nil_r in Ht; [done|]. by destruct f.
  - intros s s1 Hkeys Hfix.
    assert (start_interview cfg s
            = Some (session_end cfg (Raise (exn_of_fault f)) s1)) as Hrun.
    { rewrite start_interview_eq by done. unfold interview_body.
      by rewrite (bind_raise _ _ _ _ _ Hfix). }
    split; [done|].
    intros Hok. rewrite Hrun. unfold session_end. rewrite Hok. by destruct f.
Qed.

(** The microphone fails during the first resume question. *)
Lemma read_failure_by_phase_witness :
  let s := Sample.fresh [[Sample.chr "e"]; [Sample.chr "e"]; [Sample.chr "e"]]
             [Sample.stop_capture; Sample.stop_capture; Sample.broken_capture] in
  let s1 := Sample.state_after
              (fixed_phase Sample.resume_cfg (after_intro Sample.resume_cfg s)) in
  let sq := emit [EvSpeak resume_announcement] s1 in
  let sq' := Sample.state_after
               (_ask_question_and_record Sample.resume_cfg
                  "Tell me about your thesis." "dynamic" sq) in
  start_interview Sample.resume_cfg s
  = Some (Ok tt, finalized Sample.resume_cfg
                   (emit [EvSpeak "I ran into an issue processing your resume, so we'll skip that part."] sq')).
Proof.
  intros s s1 sq sq'.
  destruct (read_failure_by_phase Sample.resume_cfg (Failure "Unanticipated host error"))
    as [Hresume _].
  destruct (Hresume s s1 [] "Tell me about your thesis." ["Why this role?"] sq sq')
    as (_ & _ & Hrun & _).
  - reflexivity.
  - vm_compute. reflexivity.
  - reflexivity.
  - reflexivity.
  - vm_compute. reflexivity.
  - apply Hrun. vm_compute. reflexivity.
Defined.

(** ** The body of speak *)

Local Ltac refute H :=
  repeat match type of H with
         | ∃ _, _ => destruct H as [? H]
         | _ ∧ _ => destruct H as [? H]
         end;
  simplify_eq; congruence.

(** X11: [speak] never raises, whatever the temporary file, the synthesis
    and the players do.  It prints the text first.  The text is played
    through [mpg123] when synthesis and [mpg123] succeed, and through
    [ffplay] exactly when synthesis succeeds, [mpg123] is not installed and
    [ffplay] succeeds; a failing [mpg123] that is installed is not followed
    by [ffplay].  When nothing is played, exactly one error is logged, and
    when something is played, none. *)
Theorem speak_playback_outcomes w text :
  let evs := (speak_playback w text).2 in
  (speak_playback w text).1 = Ok tt ∧
  head evs = Some (PbPrint text) ∧
  (played_by evs = Some "mpg123" ↔
   ∃ name, pw_tempfile w = inr name ∧ pw_rime_tts w text name = inr tt ∧
           pw_mpg123 w name = inr tt) ∧
  (played_by evs = Some "ffplay" ↔
   ∃ name m, pw_tempfile w = inr name ∧ pw_rime_tts w text name = inr tt ∧
             pw_mpg123 w name = inl (NotFound m) ∧ pw_ffplay w name = inr tt) ∧
  length (logged_errors evs) =
    match played_by evs with Some _ => 0%nat | None => 1%nat end.
Proof.
  unfold speak_playback, synthesize_and_play, play_file.
  destruct (pw_tempfile w) as [f0|name] eqn:Htmp.
  { destruct f0; simpl; repeat split; try done; intros H; refute H. }
  destruct (pw_rime_tts w text name) as [f1|[]] eqn:Htts.
  { destruct f1; simpl; repeat split; try done; intros H; refute H. }
  destruct (pw_mpg123 w name) as [[m|m]|[]] eqn:Hmpg.
  - destruct (pw_ffplay w name) as [f3|[]] eqn:Hff.
    + destruct f3; simpl; repeat split; try done; intros H; refute H.
    + simpl. repeat split; try done.
      * intros H; refute H.
      * intros _. eauto 10.
  - simpl. repeat split; try done; intros H; refute H.
  - simpl. repeat split; try done.
    + intros _. eauto.
    + intros H; refute H.
Qed.

(** ** The saved file determines the transcript *)








Lemma dump_items_cons e es :
  Json.dump_items (e :: es) =
  "    " +:+ Json.dump_entry e +:+
  match es with
  | [] => Json.newline
  | _ => "," +:+ Json.newline +:+ Json.dump_items es
  end.
Proof. by destruct es. Qed.





Lemma plain_ascii_app a b : plain_ascii (a +:+ b) = plain_ascii a && plain_ascii b.
Proof.
  induction a as [|c a IH]; [done|].
  rewrite string_cons_app. simpl. by rewrite IH, andb_assoc.
Qed.

Lemma plain_ascii_hex_digit d s :
  (d < 16)%nat →
  plain_ascii (String (Json.hex_digit d) s) = plain_ascii s.
Proof.
  intros Hd. do 16 (destruct d as [|d]; [reflexivity|]). lia.
Qed.

Lemma plain_ascii_u4 n : plain_ascii (Json.u4 n) = true.
Proof.
  assert (∀ x, (N.to_nat (x mod 16) < 16)%nat) as Hlt.
  { intros x. pose proof (N.mod_lt x 16). lia. }
  unfold Json.u4.
  change (plain_ascii (String Json.backslash (String "u" ?s)))
    with (plain_ascii s).
  by rewrite !plain_ascii_hex_digit.
Qed.

Lemma plain_ascii_escape_code_point n :
  plain_ascii (Json.escape_code_point n) = true.
Proof.
  unfold Json.escape_code_point. repeat case_match; try reflexivity.
  - match goal with
    | H : (32 <=? n)%N && (n <=? 126)%N = true |- _ =>
        apply andb_prop in H as [Hlo%N.leb_le Hhi%N.leb_le]
    end.
    cbn [plain_ascii]. rewrite andb_true_r. unfold nat_of_ascii.
    rewrite N_ascii_embedding by lia.
    apply orb_true_iff. right. apply andb_true_iff.
    split; apply Nat.leb_le; lia.
  - apply plain_ascii_u4.
  - by rewrite plain_ascii_app, !plain_ascii_u4.
Qed.

Lemma plain_ascii_escape s : plain_ascii (Json.escape s) = true.
Proof.
  unfold Json.escape. induction (Json.decode s) as [|n cps IH]; [done|].
  cbn [Json.escape_all]. by rewrite plain_ascii_app, plain_ascii_escape_code_point.
Qed.

Lemma plain_ascii_dump_entry e : plain_ascii (Json.dump_entry e) = true.
Proof.
  unfold Json.dump_entry, Json.member, Json.str.
  rewrite !plain_ascii_app, ?string_cons_app. simpl.
  by rewrite !plain_ascii_app, !plain_ascii_escape.
Qed.

Lemma plain_ascii_dump_items es : plain_ascii (Json.dump_items es) = true.
Proof.
  induction es as [|e es IH]; [done|].
  rewrite dump_items_cons, !plain_ascii_app, plain_ascii_dump_entry.
  destruct es as [|e' es]; [done|]. by rewrite !plain_ascii_app, IH.
Qed.

(** X13: the file written by [save_transcript] is plain ASCII: line feeds
    and printable characters only, whatever the questions and the
    recognised answers contain.  Every other character is written as an
    escape: a control character as a short escape or [\u00xx], a
    character of the basic plane as one [\uxxxx], a character beyond it
    as a pair of surrogates. *)
Theorem saved_file_plain_ascii cfg s t :
  save_transcript cfg s = Some (Ok tt, t) →
  ∃ content,
    files t !! transcript_filename cfg = Some content ∧
    content = Json.dump (transcript s) ∧
    plain_ascii content = true.
Proof.
  rewrite save_transcript_eq. destruct (save_failure cfg s); [done|].
  intros [= <-]. exists (Json.dump (transcript s)). split; [|split; [done|]].
  { unfold saved. simpl. apply lookup_insert_eq. }
  destruct (transcript s) as [|e es]; [done|].
  unfold Json.dump. by rewrite !plain_ascii_app, plain_ascii_dump_items.
Qed.

(** An answer with a euro sign and an emoji, in UTF-8. *)
Lemma saved_file_plain_ascii_witness :
  let text := String "226"%char (String "130"%char (String "172"%char
             (String "240"%char (String "159"%char (String "152"%char
             (String "128"%char EmptyString)))))) in
  let s := append_transcript (Entry "q1" "Price?" text) (Sample.fresh [] []) in
  ∃ content,
    files (Sample.state_after (save_transcript Sample.cfg s))
      !! "interview_transcript/candidate_7_ml.json" = Some content ∧
    plain_ascii content = true ∧
    Json.escape text =
      String Json.backslash "u20ac" +:+ String Json.backslash "ud83d"
      +:+ String Json.backslash "ude00".
Proof.
  intros text s.
  assert (save_transcript Sample.cfg s
          = Some (Ok tt, Sample.state_after (save_transcript Sample.cfg s)))
    as Hrun by (vm_compute; reflexivity).
  destruct (saved_file_plain_ascii Sample.cfg s _ Hrun) as (content & Hfile & _ & Hplain).
  exists content. split; [exact Hfile|]. split; [exact Hplain|].
  vm_compute. reflexivity.
Defined.

(** ** One path per candidate and interview *)

(** Two texts cut at the first occurrence of a character. *)
Lemma split_at_first c a b x y :
  lacks c a = true → lacks c b = true →
  a +:+ String c x = b +:+ String c y → a = b ∧ x = y.
Proof.
  revert b. induction a as [|d a IH]; intros [|d' b] Ha Hb Heq.
  - by injection Heq as ->.
  - rewrite string_cons_app in Heq. injection Heq as -> _.
    simpl in Hb. by rewrite bool_decide_true in Hb.
  - rewrite string_cons_app in Heq. injection Heq as -> _.
    simpl in Ha. by rewrite bool_decide_true in Ha.
  - rewrite !string_cons_app in Heq. injection Heq as -> Heq.
    simpl in Ha, Hb. apply andb_prop in Ha as [_ Ha]. apply andb_prop in Hb as [_ Hb].
    destruct (IH b Ha Hb Heq) as [-> ->]. done.
Qed.

Lemma string_length_app (a b : string) :
  String.length (a +:+ b) = (String.length a + String.length b)%nat.
Proof. induction a as [|c a IH]; [done|]. rewrite string_cons_app. simpl. by rewrite IH. Qed.

Lemma string_app_inv_tail (a b t : string) : a +:+ t = b +:+ t → a = b.
Proof.
  revert b. induction a as [|c a IH]; intros [|d b] Heq; [done| | |].
  - apply (f_equal String.length) in Heq.
    rewrite !string_length_app in Heq. simpl in Heq. lia.
  - apply (f_equal String.length) in Heq.
    rewrite !string_length_app in Heq. simpl in Heq. lia.
  - rewrite !string_cons_app in Heq. injection Heq as -> Heq. by rewrite (IH b Heq).
Qed.

(** X14: the text of the path that [save_transcript] builds tells the
    candidate and the interview apart: two interviewers build the same
    path text only if they have the same candidate id and the same
    interview name.  The path is always the transcript directory, a
    separator, and the file name made of the two.  (This is about the text
    of the path; two different texts may still name one file, as an
    interview name with a doubled separator shows.) *)
Theorem transcript_filename_inj cfg cfg' :
  transcript_filename cfg = transcript_filename cfg' →
  candidate_id cfg = candidate_id cfg' ∧ interview_name cfg = interview_name cfg' ∧
  transcript_filename cfg =
    "interview_transcript/candidate_" +:+ pretty (candidate_id cfg) +:+ "_"
    +:+ interview_name cfg +:+ ".json".
Proof.
  rewrite !transcript_filename_eq. intros Heq.
  apply (inj (String.append transcript_dir)) in Heq. injection Heq as Heq.
  apply (split_at_first "_" (pretty (candidate_id cfg)) (pretty (candidate_id cfg'))
           (interview_name cfg +:+ ".json") (interview_name cfg' +:+ ".json"))
    in Heq as [Hid Hname]; [|by apply lacks_pretty_Z..].
  split; [|split; [|done]].
  - by apply (inj pretty).
  - by apply string_app_inv_tail in Hname.
Qed.

Lemma transcript_filename_inj_witness :
  candidate_id Sample.cfg = candidate_id Sample.resume_cfg ∧
  interview_name Sample.cfg = interview_name Sample.resume_cfg ∧
  transcript_filename Sample.cfg = "interview_transcript/candidate_7_ml.json".
Proof.
  destruct (transcript_filename_inj Sample.cfg Sample.resume_cfg eq_refl)
    as (Hid & Hname & Hpath).
  split; [exact Hid|]. split; [exact Hname|]. rewrite Hpath. reflexivity.
Defined.

(** ** When a capture ends *)

Lemma first_busy_tick max_duration start ticks :
  existsb (λ tk, negb (idle_tick max_duration start tk)) ticks = true →
  ∃ pre tk post,
    ticks = pre ++ tk :: post ∧
    forallb (idle_tick max_duration start) pre = true ∧
    idle_tick max_duration start tk = false.
Proof.
  induction ticks as [|tk ticks IH]; [done|]. simpl.
  destruct (idle_tick max_duration start tk) eqn:Hidle; simpl.
  - intros (pre & tk' & post & -> & Hpre & Hbusy)%IH.
    exists (tk :: pre), tk', post. simpl. by rewrite Hidle.
  - intros _. by exists [], tk, ticks.
Qed.

(** X15: a capture ends exactly when some turn is not idle: a stop or quit
    key has been handled, the time limit is passed, or a read of the
    stream fails.  As long as every turn is idle the call keeps reading
    and does not return by itself; at the first turn that is not idle it
    does return (or raise), having consumed its script. *)
Theorem capture_ends_iff max_duration s cs rest :
  captures s = cs :: rest →
  (is_Some (listen_for_audio max_duration s) ↔
   existsb (λ tk, negb (idle_tick max_duration (cs_start cs) tk)) (cs_ticks cs) = true).
Proof.
  intros Hc. split.
  - intros [[r s'] Hrun].
    destruct (existsb _ (cs_ticks cs)) eqn:Hbusy; [done|].
    assert (forallb (idle_tick max_duration (cs_start cs)) (cs_ticks cs) = true) as Hidle.
    { clear -Hbusy. induction (cs_ticks cs) as [|tk ticks IH]; [done|].
      simpl in *. apply orb_false_elim in Hbusy as [Htk Hrest].
      apply negb_false_iff in Htk. by rewrite Htk, IH. }
    unfold listen_for_audio in Hrun. rewrite Hc in Hrun.
    fold (capture_start rest s) in Hrun.
    rewrite <- (app_nil_r (cs_ticks cs)) in Hrun.
    by rewrite read_loop_idle in Hrun.
  - intros (pre & tk & post & Hticks & Hpre & Hbusy)%first_busy_tick.
    destruct (key_seen tk || over_time max_duration (cs_start cs) tk) eqn:Hend.
    + destruct (listen_for_audio_run _ _ _ _ _ _ _ Hc Hticks Hpre Hend) as [s' ->].
      done.
    + apply orb_false_elim in Hend as [Hkey Hover].
      unfold idle_tick in Hbusy. rewrite Hkey, Hover in Hbusy. simpl in Hbusy.
      unfold read_ok in Hbusy. destruct (tk_read tk) as [f|d] eqn:Hread; [|done].
      destruct (listen_for_audio_fault _ _ _ _ _ _ _ f Hc Hticks Hpre Hkey Hover Hread)
        as (s' & -> & _). done.
Qed.

Lemma capture_ends_iff_witness :
  is_Some (listen_for_audio 30 (Sample.fresh [] [Sample.timeout_capture])) ∧
  listen_for_audio 30
    (Sample.fresh [] [CaptureScript 100 [Sample.idle 110; Sample.idle 125] []]) = None.
Proof.
  split.
  - apply (capture_ends_iff 30 (Sample.fresh [] [Sample.timeout_capture])
             Sample.timeout_capture [] eq_refl). reflexivity.
  - vm_compute. reflexivity.
Defined.

(** ** load_questions *)

(** X16: [load_questions] reads the file at the path that [os.path.join]
    makes of [questions] and [<name>.json]: [questions/<name>.json],
    unless the name starts with a separator, in which case it is
    [<name>.json] alone.  It returns a value in one situation only: that
    file can be read, it parses to an object with at least one member, the
    value of the first member is an object, and that object has a member
    [questions], whose value is returned.  Topics after the first are
    never looked at.  A path that names nothing ends the process with
    [exit(1)] before anything is parsed, and this is the only way
    [load_questions] exits. *)
Theorem load_questions_loaded disk parse name v :
  (load_questions disk parse name = Loaded v ↔
   ∃ content topic members others,
     disk (questions_path name) = FileNode content ∧
     parse content = Some (JObject ((topic, JObject members) :: others)) ∧
     dict_get "questions" members = Some v) ∧
  (∀ code, load_questions disk parse name = SystemExit code ↔
           disk (questions_path name) = NoNode ∧ code = 1%Z) ∧
  questions_path name =
    (if starts_with_slash name then name +:+ ".json"
     else "questions/" +:+ name +:+ ".json").
Proof.
  assert (questions_path name =
          (if starts_with_slash name then name +:+ ".json"
           else "questions/" +:+ name +:+ ".json")) as Hpath.
  { unfold questions_path, path_join. by destruct name as [|c name]. }
  assert (∀ P Q : Prop, P → Q → P ∧ Q ∧
            questions_path name =
              (if starts_with_slash name then name +:+ ".json"
               else "questions/" +:+ name +:+ ".json")) as Hwith by done.
  apply Hwith; clear Hwith Hpath.
  all: unfold load_questions.
  all: destruct (disk (questions_path name)) as [| |class|content] eqn:Hnode.
  all: try (split; [done|intros H; refute H]).
  all: try (intros code; split; [by intros [= <-]|by intros [_ ->]]).
  all: try (intros code; split; [done|by intros [? _]]).
  all: assert (∀ o : load_outcome,
              (∀ code, o ≠ SystemExit code) →
              ∀ code, o = SystemExit code ↔ FileNode content = NoNode ∧ code = 1%Z)
         as Hnoexit
         by (intros o Ho code; split; [by intros ?%Ho|by intros [? _]]).
  all: destruct (parse content) as [[|b|n|str|items|members]|] eqn:Hparse.
  all: try (by apply Hnoexit).
  all: try (split; [done|intros H; refute H]).
  all: destruct members as [|[key topic] others].
  all: try (by apply Hnoexit).
  all: try (split; [done|intros H; refute H]).
  all: assert (dict_get key ((key, topic) :: others) = Some topic) as ->
         by (unfold dict_get; simpl; by rewrite bool_decide_true).
  all: unfold subscript_questions.
  all: destruct topic as [|b|n|str|items|members].
  all: try (by apply Hnoexit).
  all: try (split; [done|intros H; refute H]).
  all: destruct (dict_get "questions" members) as [qs|] eqn:Hqs.
  all: try (by apply Hnoexit).
  all: try (split; [done|intros H; refute H]).
  split.
  - intros [= ->]. eauto 10.
  - intros (c0 & t0 & m0 & o0 & [= <-] & Hp & Hv).
    rewrite Hparse in Hp. injection Hp as <- <- <-. congruence.
Qed.

(** The questions of the interview [ml], and an interview whose name is
    an absolute path. *)
Example load_questions_paths :
  let content := "the file" in
  let value := JObject [("ml", JObject [("questions", JArray [JString "Why?"])])] in
  let parse := λ text, if bool_decide (text = content) then Some value else None in
  let disk := λ path,
    if bool_decide (path = "questions/ml.json") then FileNode content
    else if bool_decide (path = "/srv/ml.json") then FileNode "something else"
    else NoNode in
  questions_path "ml" = "questions/ml.json" ∧
  questions_path "/srv/ml" = "/srv/ml.json" ∧
  load_questions disk parse "ml" = Loaded (JArray [JString "Why?"]) ∧
  load_questions disk parse "/srv/ml" = LoadError "JSONDecodeError" ∧
  load_questions disk parse "frontend" = SystemExit 1.
Proof. repeat split; vm_compute; reflexivity. Qed.
